(** * Git decoration providers (extensions/git/src/decorationProvider.ts)

    A shallow embedding of the three classes of the file:
    - [GitIgnoreDecorationProvider]: the queue of "is this path ignored?"
      queries answered by one batched [checkIgnore] call;
    - [GitDecorationProvider]: the per-repository decoration map, rebuilt
      after every repository operation, with the list of changed uris fired
      to the host;
    - [GitDecorations]: the registry holding one pair of providers per open
      repository.

    JavaScript [Map]s are modelled with their insertion order, objects by
    records passed explicitly, promises by the log of the calls of their
    [resolve] / [reject] functions. *)

From Stdlib Require Import ZArith QArith.
From stdpp Require Import base decidable option list gmap strings.

(** ** JavaScript [Map] *)

(** The entries of a [Map<K, V>] in insertion order.  Every map built with
    [Map_set] from [Map_new] has pairwise distinct keys ([Map_wf]). *)
Abbreviation JsMap K V := (list (K * V)) (only parsing).

Section JsMap.
Context {K V : Type} `{EqDecision K}.

Definition Map_new : JsMap K V := [].

Definition Map_keys (m : JsMap K V) : list K := m.*1.

Definition Map_wf (m : JsMap K V) : Prop := NoDup (Map_keys m).

Definition Map_size (m : JsMap K V) : nat := length m.

Fixpoint Map_get (k : K) (m : JsMap K V) : option V :=
  match m with
  | [] => None
  | (k', v) :: m' => if decide (k = k') then Some v else Map_get k m'
  end.

Definition Map_has (k : K) (m : JsMap K V) : bool :=
  match Map_get k m with Some _ => true | None => false end.

(** [m.set(k, v)]: an existing key keeps its position and takes the new
    value, a new key goes to the end. *)
Fixpoint Map_set (k : K) (v : V) (m : JsMap K V) : JsMap K V :=
  match m with
  | [] => [(k, v)]
  | (k', v') :: m' =>
      if decide (k = k') then (k, v) :: m' else (k', v') :: Map_set k v m'
  end.

(** [m.delete(k)]: the entry under [k] goes (the keys of a map are distinct,
    so there is at most one). *)
Fixpoint Map_delete (k : K) (m : JsMap K V) : JsMap K V :=
  match m with
  | [] => []
  | (k', v') :: m' =>
      if decide (k = k') then Map_delete k m' else (k', v') :: Map_delete k m'
  end.

(** [m.clear()] *)
Definition Map_clear (m : JsMap K V) : JsMap K V := [].

(** [new Map(m.entries())] *)
Definition Map_copy (m : JsMap K V) : JsMap K V := m.

(** [m.forEach((value, key) => body)] threading the state [S] that the
    body mutates. *)
Definition Map_forEach {S : Type} (body : V → K → S → S) (m : JsMap K V) (s : S) : S :=
  fold_left (λ acc kv, body kv.2 kv.1 acc) m s.
End JsMap.

(** ** The [vscode] API used by the file *)

(** [Uri]: only [Uri.parse], [uri.toString()] and [uri.fsPath] are used. *)
Class UriApi (Uri : Type) := {
  Uri_parse : string → Uri;
  Uri_toString : Uri → string;
  Uri_fsPath : Uri → string
}.

(** [DecorationData]: a priority rank and an opacity factor. *)
Record DecorationData := {
  priority : Z;
  opacity : Q
}.

(** A [Disposable] handed out by the host is identified by the rank of the
    registration that created it. *)
Definition Disposable : Type := nat.

(** Repositories are objects: [repoId] is the object identity. *)
Definition RepoId : Type := nat.

Inductive Registration :=
| RegisterDecorationProvider (scope : string)
| OnDidRunOperation (repo : RepoId)
| OnDidOpenRepository
| OnDidCloseRepository.

(** The host: the registrations made so far and the handles on which
    [dispose()] was called, both oldest first. *)
Record Host := {
  registrations : list Registration;
  disposed : list Disposable
}.

Definition Host_register (r : Registration) (h : Host) : Disposable * Host :=
  (length (registrations h),
   {| registrations := registrations h ++ [r]; disposed := disposed h |}).

Definition Disposable_dispose (d : Disposable) (h : Host) : Host :=
  {| registrations := registrations h; disposed := disposed h ++ [d] |}.

(** [disposables.forEach(d => d.dispose())] *)
Definition disposeAll (ds : list Disposable) (h : Host) : Host :=
  fold_left (λ acc d, Disposable_dispose d acc) ds h.

(** ** ./repository *)

Section Repository.
Context {Uri : Type}.

Record Resource := {
  original : Uri;
  resourceDecoration : option DecorationData
}.

Record GitResourceGroup := {
  resourceStates : list Resource
}.

Record Repository := {
  repoId : RepoId;
  root : string;
  indexGroup : GitResourceGroup;
  workingTreeGroup : GitResourceGroup
}.
End Repository.

Arguments Resource : clear implicits.
Arguments GitResourceGroup : clear implicits.
Arguments Repository : clear implicits.

(** ** class GitDecorationProvider *)

Section GitDecorationProvider.
Context {Uri : Type} `{UriApi Uri}.

Record GitDecorationProvider := {
  gd_repository : RepoId;
  gd_disposables : list Disposable;
  gd_decorations : JsMap string DecorationData;
  (** payloads fired on [_onDidChangeDecorations], oldest first *)
  gd_fired : list (list Uri)
}.

Definition GitDecorationProvider_new (repository : Repository Uri) (h : Host)
  : GitDecorationProvider * Host :=
  let '(d1, h) := Host_register (RegisterDecorationProvider (root repository)) h in
  let '(d2, h) := Host_register (OnDidRunOperation (repoId repository)) h in
  ({| gd_repository := repoId repository;
      gd_disposables := [d1; d2];
      gd_decorations := Map_new;
      gd_fired := [] |}, h).

Definition collectDecorationData (group : GitResourceGroup Uri)
    (bucket : JsMap string DecorationData) : JsMap string DecorationData :=
  fold_left (λ bucket r,
    match resourceDecoration r with
    | Some d => Map_set (Uri_toString (original r)) d bucket
    | None => bucket
    end) (resourceStates group) bucket.

(** The two [forEach] loops of [onDidRunOperation]: the state they mutate is
    [this.decorations] and the array [uris]. *)
Definition onDidRunOperation_newLoop (newDecorations : JsMap string DecorationData)
    (s : JsMap string DecorationData * list Uri)
  : JsMap string DecorationData * list Uri :=
  Map_forEach (λ (value : DecorationData) (uriString : string)
                 '((decorations, uris) : JsMap string DecorationData * list Uri),
    if Map_has uriString decorations
    then (Map_delete uriString decorations, uris)
    else (decorations, uris ++ [Uri_parse uriString])) newDecorations s.

Definition onDidRunOperation_oldLoop (decorations : JsMap string DecorationData)
    (uris : list Uri) : list Uri :=
  Map_forEach (λ (value : DecorationData) uriString uris,
    uris ++ [Uri_parse uriString]) decorations uris.

Definition onDidRunOperation (repository : Repository Uri)
    (this : GitDecorationProvider) : GitDecorationProvider :=
  let newDecorations := Map_new in
  let newDecorations := collectDecorationData (indexGroup repository) newDecorations in
  let newDecorations := collectDecorationData (workingTreeGroup repository) newDecorations in
  let uris := [] in
  let '(decorations, uris) :=
    onDidRunOperation_newLoop newDecorations (gd_decorations this, uris) in
  let uris := onDidRunOperation_oldLoop decorations uris in
  {| gd_repository := gd_repository this;
     gd_disposables := gd_disposables this;
     gd_decorations := newDecorations;
     gd_fired := gd_fired this ++ [uris] |}.

Definition GitDecorationProvider_provideDecoration (uri : Uri)
    (this : GitDecorationProvider) : option DecorationData * GitDecorationProvider :=
  (Map_get (Uri_toString uri) (gd_decorations this), this).

Definition GitDecorationProvider_dispose (this : GitDecorationProvider) (h : Host)
  : GitDecorationProvider * Host :=
  (this, disposeAll (gd_disposables this) h).
End GitDecorationProvider.

Arguments GitDecorationProvider : clear implicits.

(** ** class GitIgnoreDecorationProvider *)

(** A promise created by [provideDecoration] is identified by its rank of
    creation.  The object [{ resolve, reject }] stored in the queue is the
    pair of settling functions of that promise, so it is represented by the
    promise's identifier. *)
Definition PromiseId : Type := nat.

Section GitIgnoreDecorationProvider.
Context {Uri Err : Type} `{UriApi Uri}.

Record GitIgnoreDecorationProvider := {
  gi_repository : RepoId;
  gi_checkIgnoreQueue : JsMap string PromiseId;
  gi_disposables : list Disposable;
  (** the timeout handle kept by the [debounce] decorator: the time at which
      the pending timeout fires, if one is pending *)
  gi_timer : option nat
}.

(** A call of [value.resolve(status)] or [value.reject(err)]. *)
Inductive Settle :=
| Resolve (status : bool)
| Reject (err : Err).

(** One call [repository.checkIgnore(paths)] together with the map [queue]
    captured by its two continuations. *)
Record CheckIgnoreCall := {
  ci_paths : list string;
  ci_queue : JsMap string PromiseId;
  ci_completed : bool
}.

(** The provider together with the part of the runtime it acts on. *)
Record World := {
  w_provider : GitIgnoreDecorationProvider;
  w_host : Host;
  (** current time in milliseconds *)
  w_now : nat;
  (** number of promises created so far *)
  w_promises : nat;
  (** calls of [repository.checkIgnore], oldest first *)
  w_calls : list CheckIgnoreCall;
  (** calls of the settling functions, oldest first *)
  w_settled : list (PromiseId * Settle)
}.

Definition with_provider (p : GitIgnoreDecorationProvider) (w : World) : World :=
  {| w_provider := p; w_host := w_host w; w_now := w_now w;
     w_promises := w_promises w; w_calls := w_calls w; w_settled := w_settled w |}.

Definition with_queue (q : JsMap string PromiseId) (p : GitIgnoreDecorationProvider)
  : GitIgnoreDecorationProvider :=
  {| gi_repository := gi_repository p; gi_checkIgnoreQueue := q;
     gi_disposables := gi_disposables p; gi_timer := gi_timer p |}.

Definition with_timer (t : option nat) (p : GitIgnoreDecorationProvider)
  : GitIgnoreDecorationProvider :=
  {| gi_repository := gi_repository p; gi_checkIgnoreQueue := gi_checkIgnoreQueue p;
     gi_disposables := gi_disposables p; gi_timer := t |}.

Definition GitIgnoreDecorationProvider_new (repository : Repository Uri) (h : Host)
  : GitIgnoreDecorationProvider * Host :=
  let '(d, h) := Host_register (RegisterDecorationProvider ".gitignore") h in
  ({| gi_repository := repoId repository;
      gi_checkIgnoreQueue := Map_new;
      gi_disposables := [d];
      gi_timer := None |}, h).

Definition GitIgnoreDecorationProvider_dispose (this : GitIgnoreDecorationProvider)
    (h : Host) : GitIgnoreDecorationProvider * Host :=
  let h := disposeAll (gi_disposables this) h in
  (with_queue (Map_clear (gi_checkIgnoreQueue this)) this, h).

(** The body of [checkIgnoreSoon], as the timeout runs it. *)
Definition checkIgnoreSoon_body (w : World) : World :=
  let this := w_provider w in
  let queue := Map_copy (gi_checkIgnoreQueue this) in
  let this := with_queue (Map_clear (gi_checkIgnoreQueue this)) this in
  {| w_provider := this; w_host := w_host w; w_now := w_now w;
     w_promises := w_promises w;
     w_calls := w_calls w ++
       [{| ci_paths := Map_keys queue; ci_queue := queue; ci_completed := false |}];
     w_settled := w_settled w |}.

(** Modelled from the spec: the [debounce] decorator of [./decorators] is
    not part of the sources.  Per the spec every call cancels the pending
    timeout and starts a new one of [delay] milliseconds, and the body runs
    when the timeout fires. *)
Definition debounce (delay : nat) (w : World) : World :=
  with_provider (with_timer (Some (w_now w + delay)) (w_provider w)) w.

Definition checkIgnoreSoon (w : World) : World := debounce 500 w.

(** The executor of [new Promise<boolean>((resolve, reject) => ...)] in
    [provideDecoration]; the result is the new promise. *)
Definition provideDecoration_executor (uri : Uri) (w : World) : PromiseId * World :=
  let id := w_promises w in
  let this := w_provider w in
  let this := with_queue (Map_set (Uri_fsPath uri) id (gi_checkIgnoreQueue this)) this in
  let w := {| w_provider := this; w_host := w_host w; w_now := w_now w;
              w_promises := S (w_promises w); w_calls := w_calls w;
              w_settled := w_settled w |} in
  (id, checkIgnoreSoon w).

(** The continuation [ignored => ...] of [provideDecoration]; [None] is
    [undefined]. *)
Definition provideDecoration_then (ignored : bool) : option DecorationData :=
  if ignored then Some {| priority := 3; opacity := 3 # 4 |} else None.

Definition GitIgnoreDecorationProvider_provideDecoration (uri : Uri) (w : World)
  : PromiseId * World :=
  provideDecoration_executor uri w.

(** What the promise returned by [provideDecoration] is settled with, once
    the settling functions of promise [id] have been called: the first call
    decides, fulfilment goes through [provideDecoration_then], rejection is
    passed on. *)
Definition provideDecoration_result (id : PromiseId) (w : World)
  : option (option DecorationData + Err) :=
  match filter (λ e, e.1 = id) (w_settled w) with
  | [] => None
  | (_, Resolve ignored) :: _ => Some (inl (provideDecoration_then ignored))
  | (_, Reject err) :: _ => Some (inr err)
  end.

(** The two continuations of [checkIgnore(...).then(..., ...)]. *)
Definition checkIgnore_onFulfilled (queue : JsMap string PromiseId)
    (ignoreSet : gset string) (log : list (PromiseId * Settle))
  : list (PromiseId * Settle) :=
  Map_forEach (λ value key log,
    log ++ [(value, Resolve (bool_decide (key ∈ ignoreSet)))]) queue log.

Definition checkIgnore_onRejected (queue : JsMap string PromiseId)
    (err : Err) (log : list (PromiseId * Settle)) : list (PromiseId * Settle) :=
  Map_forEach (λ value (_ : string) log, log ++ [(value, Reject err)]) queue log.

(** The promise of the [i]-th [checkIgnore] call completes. A promise
    completes once: nothing happens for a call that is already completed or
    was never made. *)
Definition checkIgnore_completes (i : nat) (r : gset string + Err) (w : World) : World :=
  match w_calls w !! i with
  | Some c =>
      if ci_completed c then w else
      {| w_provider := w_provider w; w_host := w_host w; w_now := w_now w;
         w_promises := w_promises w;
         w_calls := <[i := {| ci_paths := ci_paths c; ci_queue := ci_queue c;
                              ci_completed := true |}]> (w_calls w);
         w_settled :=
           match r with
           | inl ignoreSet => checkIgnore_onFulfilled (ci_queue c) ignoreSet (w_settled w)
           | inr err => checkIgnore_onRejected (ci_queue c) err (w_settled w)
           end |}
  | None => w
  end.

(** [dt] milliseconds pass: a timeout that is due fires. *)
Definition elapse (dt : nat) (w : World) : World :=
  let w := {| w_provider := w_provider w; w_host := w_host w; w_now := w_now w + dt;
              w_promises := w_promises w; w_calls := w_calls w;
              w_settled := w_settled w |} in
  match gi_timer (w_provider w) with
  | Some due =>
      if decide (due ≤ w_now w)
      then checkIgnoreSoon_body (with_provider (with_timer None (w_provider w)) w)
      else w
  | None => w
  end.

Definition World_dispose (w : World) : World :=
  let '(this, h) := GitIgnoreDecorationProvider_dispose (w_provider w) (w_host w) in
  {| w_provider := this; w_host := h; w_now := w_now w;
     w_promises := w_promises w; w_calls := w_calls w; w_settled := w_settled w |}.

Definition World_init (repository : Repository Uri) (h : Host) : World :=
  let '(this, h) := GitIgnoreDecorationProvider_new repository h in
  {| w_provider := this; w_host := h; w_now := 0; w_promises := 0;
     w_calls := []; w_settled := [] |}.

(** What can happen to a provider. *)
Inductive Op :=
| Query (uri : Uri)
| Elapse (dt : nat)
| Completes (i : nat) (r : gset string + Err)
| Dispose.

Definition step (w : World) (op : Op) : World :=
  match op with
  | Query uri => (GitIgnoreDecorationProvider_provideDecoration uri w).2
  | Elapse dt => elapse dt w
  | Completes i r => checkIgnore_completes i r w
  | Dispose => World_dispose w
  end.

Definition run (ops : list Op) (w : World) : World := fold_left step ops w.

(** Number of calls of the settling functions of promise [id]. *)
Definition settle_count (id : PromiseId) (w : World) : nat :=
  length (filter (λ e, e.1 = id) (w_settled w)).
End GitIgnoreDecorationProvider.

Arguments GitIgnoreDecorationProvider : clear implicits.
Arguments Settle : clear implicits.
Arguments CheckIgnoreCall : clear implicits.
Arguments World : clear implicits.
Arguments Op : clear implicits.

(** ** class GitDecorations *)

Section GitDecorations.
Context {Uri : Type} `{UriApi Uri}.

(** [Disposable.from(provider, ignoreProvider)] *)
Record ProviderPair := {
  pp_provider : GitDecorationProvider Uri;
  pp_ignoreProvider : GitIgnoreDecorationProvider
}.

(** The [dispose] method of a [Disposable.from(...)]: disposes of each. *)
Definition ProviderPair_dispose (pair : ProviderPair) (h : Host) : ProviderPair * Host :=
  let '(provider, h) := GitDecorationProvider_dispose (pp_provider pair) h in
  let '(ignoreProvider, h) := GitIgnoreDecorationProvider_dispose (pp_ignoreProvider pair) h in
  ({| pp_provider := provider; pp_ignoreProvider := ignoreProvider |}, h).

Record GitDecorations := {
  g_disposables : list Disposable;
  g_providers : JsMap RepoId ProviderPair
}.

Definition onDidOpenRepository (repository : Repository Uri)
    (s : GitDecorations * Host) : GitDecorations * Host :=
  let '(this, h) := s in
  let '(provider, h) := GitDecorationProvider_new repository h in
  let '(ignoreProvider, h) := GitIgnoreDecorationProvider_new repository h in
  ({| g_disposables := g_disposables this;
      g_providers := Map_set (repoId repository)
        {| pp_provider := provider; pp_ignoreProvider := ignoreProvider |}
        (g_providers this) |}, h).

Definition onDidCloseRepository (repository : Repository Uri)
    (s : GitDecorations * Host) : GitDecorations * Host :=
  let '(this, h) := s in
  match Map_get (repoId repository) (g_providers this) with
  | Some provider =>
      let '(_, h) := ProviderPair_dispose provider h in
      ({| g_disposables := g_disposables this;
          g_providers := Map_delete (repoId repository) (g_providers this) |}, h)
  | None => (this, h)
  end.

(** [model] is given by [model.repositories]. *)
Definition GitDecorations_new (repositories : list (Repository Uri)) (h : Host)
  : GitDecorations * Host :=
  let '(d1, h) := Host_register OnDidOpenRepository h in
  let '(d2, h) := Host_register OnDidCloseRepository h in
  let this := {| g_disposables := [d1; d2]; g_providers := Map_new |} in
  fold_left (λ s repository, onDidOpenRepository repository s) repositories (this, h).

(** The callback of the second [forEach] is [value => value.dispose]: it
    reads the method and does not call it. *)
Definition GitDecorations_dispose (s : GitDecorations * Host) : GitDecorations * Host :=
  let '(this, h) := s in
  let h := disposeAll (g_disposables this) h in
  let h := Map_forEach (λ (value : ProviderPair) (_ : RepoId) (h : Host),
             let _ := ProviderPair_dispose value in h) (g_providers this) h in
  ({| g_disposables := g_disposables this;
      g_providers := Map_clear (g_providers this) |}, h).

(** The handles a tracked pair holds. *)
Definition ProviderPair_handles (pair : ProviderPair) : list Disposable :=
  gd_disposables (pp_provider pair) ++ gi_disposables (pp_ignoreProvider pair).
End GitDecorations.

Arguments ProviderPair : clear implicits.
Arguments GitDecorations : clear implicits.

(** ** A model of file uris, for running the code on concrete inputs *)

Record FileUri := { fu_path : string }.

#[global] Instance FileUri_api : UriApi FileUri := {
  Uri_parse s := {| fu_path := String.substring 7 (String.length s - 7) s |};
  Uri_toString u := String.append "file://" (fu_path u);
  Uri_fsPath u := fu_path u
}.

Definition file (path : string) : FileUri := {| fu_path := path |}.

(** Three decorations, a repository and two provider states for the
    examples.  After an operation on [exampleRepository] the decorated paths
    are [y] (in both groups) and [z]. *)
Definition D1 : DecorationData := {| priority := 1; opacity := 1 |}.
Definition D2 : DecorationData := {| priority := 2; opacity := 1 |}.
Definition D3 : DecorationData := {| priority := 3; opacity := 1 |}.

Definition exampleRepository : Repository FileUri :=
  {| repoId := 0;
     root := "/repo";
     indexGroup := {| resourceStates :=
       [ {| original := file "/repo/y"; resourceDecoration := Some D1 |} ] |};
     workingTreeGroup := {| resourceStates :=
       [ {| original := file "/repo/y"; resourceDecoration := Some D2 |};
         {| original := file "/repo/w"; resourceDecoration := None |};
         {| original := file "/repo/z"; resourceDecoration := Some D3 |} ] |} |}.

Definition exampleProvider (decorations : JsMap string DecorationData)
  : GitDecorationProvider FileUri :=
  {| gd_repository := 0; gd_disposables := [0; 1];
     gd_decorations := decorations; gd_fired := [] |}.

(** ** Notions used to state the properties *)

(** The decoration of the last decorated resource state of [rs] whose
    [original] uri prints as [k]. *)
Definition lastDecoration {Uri : Type} `{UriApi Uri} (k : string)
    (rs : list (Resource Uri)) : option DecorationData :=
  last (omap (λ r, if decide (Uri_toString (original r) = k)
                   then resourceDecoration r else None) rs).

(** The keys in exactly one of two maps: those of [new] that [old] lacks, in
    the order of [new], then those of [old] that [new] lacks, in the order of
    [old]. *)
Definition changedKeys {V : Type} (old new : JsMap string V) : list string :=
  filter (λ k, k ∉ Map_keys old) (Map_keys new) ++
  filter (λ k, k ∉ Map_keys new) (Map_keys old).

(** The promises whose settling functions a [checkIgnore] call still holds. *)
Definition callIds (c : CheckIgnoreCall) : list PromiseId :=
  if ci_completed c then [] else (ci_queue c).*2.

Definition pendingIds (calls : list CheckIgnoreCall) : list PromiseId :=
  calls ≫= callIds.

(** The promises a world knows of: those settled (once per call of a settling
    function), those in the queue, those held by calls in flight. *)
Definition World_ids {Err : Type} (w : World Err) : list PromiseId :=
  (w_settled w).*1 ++ (gi_checkIgnoreQueue (w_provider w)).*2 ++ pendingIds (w_calls w).

(** No promise is known twice, and the known promises have been created. *)
Record World_inv {Err : Type} (w : World Err) : Prop := {
  inv_NoDup : NoDup (World_ids w);
  inv_created : ∀ id, id ∈ World_ids w → id < w_promises w
}.

(** What the settling of a batch appends to the log. *)
Definition settleBatch {Err : Type} (queue : JsMap string PromiseId)
    (r : gset string + Err) : list (PromiseId * Settle Err) :=
  (λ kv, (kv.2, match r with
                | inl ignoreSet => Resolve (bool_decide (kv.1 ∈ ignoreSet))
                | inr err => Reject err
                end)) <$> queue.

Definition emptyHost : Host := {| registrations := []; disposed := [] |}.

(** The promises whose settling functions are still held somewhere. *)
Definition liveIds {Err : Type} (w : World Err) : list PromiseId :=
  (gi_checkIgnoreQueue (w_provider w)).*2 ++ pendingIds (w_calls w).

(** The worlds a provider can be in: those that a sequence of operations
    leads to from a new provider. *)
Definition World_reachable {Uri Err : Type} `{UriApi Uri} (w : World Err) : Prop :=
  ∃ (repository : Repository Uri) (h : Host) (ops : list (Op Uri Err)),
    w = run ops (World_init repository h).

(** Three queries in one quiet period, dispatched as one batch. *)
Definition batchWorld : World string :=
  run [Query (file "/repo/a"); Query (file "/repo/b"); Query (file "/repo/c");
       Elapse 500] (World_init exampleRepository emptyHost).

Definition batchCall : CheckIgnoreCall :=
  {| ci_paths := ["/repo/a"; "/repo/b"; "/repo/c"];
     ci_queue := [("/repo/a", 0); ("/repo/b", 1); ("/repo/c", 2)];
     ci_completed := false |}.

(** A query followed by [dispose], the timeout and the completion of the
    (empty) batch. *)
Definition abandonedWorld : World string :=
  run [Query (file "/repo/a"); Dispose; Elapse 500; Completes 0 (inl ∅)]
      (World_init exampleRepository emptyHost).

(** A second repository, open at the same time as [exampleRepository]. *)
Definition otherRepository : Repository FileUri :=
  {| repoId := 1; root := "/other";
     indexGroup := {| resourceStates := [] |};
     workingTreeGroup := {| resourceStates := [] |} |}.

(** A burst of queries: a first query, then each further query after a gap
    of some milliseconds. *)
Definition burst {Uri Err : Type} (uri0 : Uri) (rest : list (nat * Uri)) : list (Op Uri Err) :=
  Query uri0 :: (rest ≫= λ gu, [Elapse gu.1; Query gu.2]).

(** ** Sequences of events *)

(** The aggregator after a sequence of repository operations, each given by
    the state of the repository when it completes. *)
Definition runOperations {Uri : Type} `{UriApi Uri} (snapshots : list (Repository Uri))
    (this : GitDecorationProvider Uri) : GitDecorationProvider Uri :=
  fold_left (λ this repository, onDidRunOperation repository this) snapshots this.

(** What the model reports to the registry. *)
Inductive ModelEvent {Uri : Type} :=
| DidOpenRepository (repository : Repository Uri)
| DidCloseRepository (repository : Repository Uri).

Arguments ModelEvent : clear implicits.

Definition GitDecorations_handle {Uri : Type} `{UriApi Uri}
    (s : GitDecorations Uri * Host) (e : ModelEvent Uri) : GitDecorations Uri * Host :=
  match e with
  | DidOpenRepository repository => onDidOpenRepository repository s
  | DidCloseRepository repository => onDidCloseRepository repository s
  end.

Definition GitDecorations_run {Uri : Type} `{UriApi Uri} (events : list (ModelEvent Uri))
    (s : GitDecorations Uri * Host) : GitDecorations Uri * Host :=
  fold_left GitDecorations_handle events s.

(** The handles held by the pairs a registry tracks. *)
Definition trackedHandles {Uri : Type} (this : GitDecorations Uri) : list Disposable :=
  g_providers this ≫= λ kv, ProviderPair_handles kv.2.

(** The registrations that the providers of one repository make. *)
Definition providerRegistrations {Uri : Type} (repository : Repository Uri)
  : list Registration :=
  [RegisterDecorationProvider (root repository);
   OnDidRunOperation (repoId repository);
   RegisterDecorationProvider ".gitignore"].

(** The queue of a provider has distinct keys and every [checkIgnore] call
    was given the keys of the entries it captured, each once. *)
Definition World_paths_inv {Err : Type} (w : World Err) : Prop :=
  Map_wf (gi_checkIgnoreQueue (w_provider w)) ∧
  Forall (λ c, ci_paths c = Map_keys (ci_queue c) ∧ NoDup (ci_paths c)) (w_calls w).

(** The pair that [onDidOpenRepository] creates when the host has made [n]
    registrations: the handles of its providers are [n], [n + 1], [n + 2]. *)
Definition newPair {Uri : Type} (repository : Repository Uri) (n : nat) : ProviderPair Uri :=
  {| pp_provider :=
       {| gd_repository := repoId repository; gd_disposables := [n; S n];
          gd_decorations := []; gd_fired := [] |};
     pp_ignoreProvider :=
       {| gi_repository := repoId repository; gi_checkIgnoreQueue := [];
          gi_disposables := [S (S n)]; gi_timer := None |} |}.

(** A host on which [dispose] was only called on handles that it had handed
    out. *)
Definition Host_wf (h : Host) : Prop :=
  ∀ d, d ∈ disposed h → d < length (registrations h).

(** The state of a registry constructed on the host [h]: one pair per
    tracked repository; the handles it holds, its own and those of the tracked
    pairs, and the handles [released] since then, on which [dispose] was
    called, are pairwise distinct and were handed out by the registrations
    made since [h]. *)
Definition GitDecorations_inv {Uri : Type} (h : Host) (s : GitDecorations Uri * Host) : Prop :=
  Map_wf (g_providers s.1) ∧
  length (registrations h) ≤ length (registrations s.2) ∧
  ∃ released,
    disposed s.2 = disposed h ++ released ∧
    NoDup (g_disposables s.1 ++ trackedHandles s.1 ++ released) ∧
    ∀ d, d ∈ g_disposables s.1 ++ trackedHandles s.1 ++ released →
         length (registrations h) ≤ d < length (registrations s.2).

(** A repository none of whose resource states carries a decoration. *)
Definition cleanRepository : Repository FileUri :=
  {| repoId := 0; root := "/repo";
     indexGroup := {| resourceStates := [] |};
     workingTreeGroup := {| resourceStates :=
       [ {| original := file "/repo/w"; resourceDecoration := None |} ] |} |}.

(** Two queries waiting in the queue. *)
Definition queuedWorld : World string :=
  run [Query (file "/repo/a"); Query (file "/repo/b")]
      (World_init exampleRepository emptyHost).

(** * Properties *)

Lemma filter_ext_elem {A : Type} (P Q : A → Prop)
    `{∀ x, Decision (P x)} `{∀ x, Decision (Q x)} (l : list A) :
  (∀ x, x ∈ l → P x ↔ Q x) → filter P l = filter Q l.
Proof.
  induction l as [|a l IH]; [done|]. intros Hext.
  rewrite !filter_cons, IH.
  - destruct (decide (P a)) as [HP|HP], (decide (Q a)) as [HQ|HQ]; try done.
    + exfalso. apply HQ, Hext; [left | done].
    + exfalso. apply HP, Hext; [left | done].
  - intros x Hx. apply Hext. by right.
Qed.

Lemma filter_all_elem {A : Type} (P : A → Prop) `{∀ x, Decision (P x)} (l : list A) :
  (∀ x, x ∈ l → P x) → filter P l = l.
Proof.
  induction l as [|a l IH]; [done|]. intros Hall.
  rewrite filter_cons, decide_True by (apply Hall; left).
  rewrite IH; [done|]. intros x Hx. apply Hall. by right.
Qed.

Lemma filter_none_elem {A : Type} (P : A → Prop) `{∀ x, Decision (P x)} (l : list A) :
  (∀ x, x ∈ l → ¬ P x) → filter P l = [].
Proof.
  induction l as [|a l IH]; [done|]. intros Hnone.
  rewrite filter_cons, decide_False by (apply Hnone; left).
  apply IH. intros x Hx. apply Hnone. by right.
Qed.

(** ** JavaScript [Map] *)

Section JsMapFacts.
Context {K V : Type} `{EqDecision K}.
Implicit Types (m : JsMap K V) (k : K) (v : V).

Lemma Map_get_set k k' v m :
  Map_get k (Map_set k' v m) = if decide (k = k') then Some v else Map_get k m.
Proof.
  induction m as [|[k0 v0] m IH]; simpl.
  - done.
  - destruct (decide (k' = k0)) as [->|Hne]; simpl.
    + destruct (decide (k = k0)); done.
    + rewrite IH. destruct (decide (k = k0)) as [->|]; [|done].
      destruct (decide (k0 = k')); congruence.
Qed.

Lemma Map_get_None k m : Map_get k m = None ↔ k ∉ Map_keys m.
Proof.
  unfold Map_keys. induction m as [|[k0 v0] m IH]; csimpl.
  - split; [intros _; apply not_elem_of_nil | done].
  - rewrite not_elem_of_cons. destruct (decide (k = k0)) as [->|Hne].
    + split; [done | intros [? _]; done].
    + rewrite IH. split; [done | by intros [_ ?]].
Qed.

Lemma Map_has_true k m : Map_has k m = true ↔ k ∈ Map_keys m.
Proof.
  unfold Map_has. destruct (Map_get k m) eqn:E.
  - split; [intros _|done]. destruct (decide (k ∈ Map_keys m)); [done|].
    apply Map_get_None in n. congruence.
  - apply Map_get_None in E. naive_solver.
Qed.

Lemma Map_has_false k m : Map_has k m = false ↔ k ∉ Map_keys m.
Proof. rewrite <- Map_has_true. destruct (Map_has k m); naive_solver. Qed.

Lemma Map_get_Some_elem k v m : Map_get k m = Some v → (k, v) ∈ m.
Proof.
  induction m as [|[k0 v0] m IH]; simpl; [done|].
  destruct (decide (k = k0)) as [->|].
  - intros [= ->]. left.
  - intros. right. auto.
Qed.

Lemma Map_get_elem k v m : Map_wf m → (k, v) ∈ m → Map_get k m = Some v.
Proof.
  unfold Map_wf, Map_keys. induction m as [|[k0 v0] m IH]; simpl.
  - intros _ Hin. by apply elem_of_nil in Hin.
  - rewrite NoDup_cons. intros [Hk0 Hnd] Hin.
    apply elem_of_cons in Hin as [[= -> ->]|Hin].
    + by rewrite decide_True.
    + rewrite decide_False; [auto|]. intros ->. apply Hk0.
      apply list_elem_of_fmap. by exists (k0, v).
Qed.

Lemma Map_keys_set k v m :
  Map_keys (Map_set k v m) = if Map_has k m then Map_keys m else Map_keys m ++ [k].
Proof.
  unfold Map_keys, Map_has. induction m as [|[k0 v0] m IH]; csimpl; [done|].
  destruct (decide (k = k0)) as [->|]; csimpl; [done|].
  rewrite IH. by destruct (Map_get k m).
Qed.

Lemma Map_keys_set_elem k k' v m :
  k ∈ Map_keys (Map_set k' v m) ↔ k = k' ∨ k ∈ Map_keys m.
Proof.
  rewrite Map_keys_set. destruct (Map_has k' m) eqn:E.
  - apply Map_has_true in E. split; [auto|]. by intros [->|?].
  - rewrite elem_of_app, list_elem_of_singleton. tauto.
Qed.

Lemma Map_wf_new : Map_wf (@Map_new K V).
Proof. apply NoDup_nil_2. Qed.

Lemma Map_wf_set k v m : Map_wf m → Map_wf (Map_set k v m).
Proof.
  unfold Map_wf. rewrite Map_keys_set. destruct (Map_has k m) eqn:E; [done|].
  apply Map_has_false in E. intros Hnd. apply NoDup_app. split_and!; [done| |].
  - intros x Hx ->%list_elem_of_singleton. done.
  - apply NoDup_singleton.
Qed.

Lemma Map_size_set k v m :
  Map_size (Map_set k v m) = if Map_has k m then Map_size m else S (Map_size m).
Proof.
  unfold Map_size. rewrite <- !(length_fmap fst). fold (Map_keys (Map_set k v m)).
  rewrite Map_keys_set. destruct (Map_has k m); [done|].
  rewrite length_app. simpl. unfold Map_keys. lia.
Qed.

Lemma Map_delete_filter k m : Map_delete k m = filter (λ kv, kv.1 ≠ k) m.
Proof.
  induction m as [|[k0 v0] m IH]; [done|].
  rewrite filter_cons. cbn [Map_delete fst]. rewrite IH.
  destruct (decide (k = k0)) as [->|Hne].
  - by rewrite decide_False by (intros Hk; by apply Hk).
  - by rewrite decide_True by congruence.
Qed.

Lemma Map_keys_filter_notin (ks : list K) m :
  Map_keys (filter (λ kv, kv.1 ∉ ks) m) = filter (λ k, k ∉ ks) (Map_keys m).
Proof.
  unfold Map_keys. induction m as [|[k0 v0] m IH]; [done|].
  rewrite fmap_cons, !filter_cons. cbn [fst].
  destruct (decide (k0 ∉ ks)); [rewrite fmap_cons|]; by rewrite IH.
Qed.

Lemma Map_keys_delete_elem k k' m :
  k' ∈ Map_keys (Map_delete k m) ↔ k' ≠ k ∧ k' ∈ Map_keys m.
Proof.
  rewrite Map_delete_filter. unfold Map_keys. rewrite !list_elem_of_fmap. split.
  - intros ([k0 v0] & -> & [Hne Hin]%list_elem_of_filter). split; [done|].
    by exists (k0, v0).
  - intros (Hne & [k0 v0] & -> & Hin). exists (k0, v0). split; [done|].
    by apply list_elem_of_filter.
Qed.

Lemma Map_forEach_snoc {S : Type} (body : V → K → S → S) m k v (s : S) :
  Map_forEach body (m ++ [(k, v)]) s = body v k (Map_forEach body m s).
Proof. unfold Map_forEach. by rewrite fold_left_app. Qed.
End JsMapFacts.

(** ** GitDecorationProvider *)

Section GitDecorationProviderFacts.
Context {Uri : Type} `{UriApi Uri}.
Implicit Types (bucket old new : JsMap string DecorationData).
Implicit Types (rs : list (Resource Uri)) (group : GitResourceGroup Uri).

Lemma collectDecorationData_snoc rs r bucket :
  collectDecorationData {| resourceStates := rs ++ [r] |} bucket =
  match resourceDecoration r with
  | Some d => Map_set (Uri_toString (original r)) d
                (collectDecorationData {| resourceStates := rs |} bucket)
  | None => collectDecorationData {| resourceStates := rs |} bucket
  end.
Proof. unfold collectDecorationData. simpl. by rewrite fold_left_app. Qed.

Lemma collectDecorationData_wf group bucket :
  Map_wf bucket → Map_wf (collectDecorationData group bucket).
Proof.
  destruct group as [rs]. intros Hwf.
  induction rs as [|r rs IH] using rev_ind; [done|].
  rewrite collectDecorationData_snoc.
  destruct (resourceDecoration r); [by apply Map_wf_set | done].
Qed.

Lemma lastDecoration_snoc k rs r :
  lastDecoration k (rs ++ [r]) =
  match resourceDecoration r with
  | Some d => if decide (Uri_toString (original r) = k) then Some d
              else lastDecoration k rs
  | None => lastDecoration k rs
  end.
Proof.
  unfold lastDecoration. rewrite omap_app. simpl.
  destruct (decide (Uri_toString (original r) = k)).
  - destruct (resourceDecoration r); simpl.
    + by rewrite last_snoc.
    + by rewrite app_nil_r.
  - rewrite app_nil_r. by destruct (resourceDecoration r).
Qed.

Lemma lastDecoration_app k rs1 rs2 :
  lastDecoration k (rs1 ++ rs2) =
  match lastDecoration k rs2 with
  | Some d => Some d
  | None => lastDecoration k rs1
  end.
Proof.
  induction rs2 as [|r rs2 IH] using rev_ind.
  - by rewrite app_nil_r.
  - rewrite app_assoc, !lastDecoration_snoc, IH.
    destruct (resourceDecoration r); [|done].
    by destruct (decide (Uri_toString (original r) = k)).
Qed.

Lemma lastDecoration_Some k rs d :
  lastDecoration k rs = Some d →
  ∃ r, r ∈ rs ∧ Uri_toString (original r) = k ∧ resourceDecoration r = Some d.
Proof.
  induction rs as [|r rs IH] using rev_ind; [done|].
  rewrite lastDecoration_snoc. intros Hlast.
  destruct (resourceDecoration r) as [d'|] eqn:Hd.
  - destruct (decide (Uri_toString (original r) = k)) as [Hk|Hk].
    + injection Hlast as ->. exists r. split_and!; [|done..].
      apply elem_of_app. right. apply list_elem_of_singleton. done.
    + destruct (IH Hlast) as (r' & ? & ? & ?). exists r'. split_and!; [|done..].
      apply elem_of_app. by left.
  - destruct (IH Hlast) as (r' & ? & ? & ?). exists r'. split_and!; [|done..].
    apply elem_of_app. by left.
Qed.

Lemma lastDecoration_None k rs :
  lastDecoration k rs = None ↔
  ∀ r, r ∈ rs → Uri_toString (original r) = k → resourceDecoration r = None.
Proof.
  induction rs as [|r rs IH] using rev_ind.
  - split; [|done]. intros _ r Hr. by apply elem_of_nil in Hr.
  - rewrite lastDecoration_snoc. split.
    + intros Hlast r' [Hr'|Hr']%elem_of_app Hk.
      * apply IH; [|done..]. destruct (resourceDecoration r); [|done].
        by destruct (decide (Uri_toString (original r) = k)).
      * apply list_elem_of_singleton in Hr' as ->.
        destruct (resourceDecoration r); [|done]. by rewrite decide_True in Hlast.
    + intros Hall.
      assert (lastDecoration k rs = None) as ->.
      { apply IH. intros r' Hr'. apply Hall, elem_of_app. by left. }
      destruct (resourceDecoration r) as [d|] eqn:Hd; [|done].
      destruct (decide (Uri_toString (original r) = k)) as [Hk|]; [|done].
      specialize (Hall r). rewrite Hd in Hall. apply Hall; [|done].
      apply elem_of_app. right. by apply list_elem_of_singleton.
Qed.

(** What [collectDecorationData] leaves under a key. *)
Lemma collectDecorationData_get k group bucket :
  Map_get k (collectDecorationData group bucket) =
  match lastDecoration k (resourceStates group) with
  | Some d => Some d
  | None => Map_get k bucket
  end.
Proof.
  destruct group as [rs]. simpl.
  induction rs as [|r rs IH] using rev_ind; [done|].
  rewrite collectDecorationData_snoc, lastDecoration_snoc.
  destruct (resourceDecoration r) as [d|]; [|done].
  rewrite Map_get_set, IH.
  destruct (decide (k = Uri_toString (original r))) as [->|Hne].
  - by rewrite decide_True.
  - by rewrite decide_False by congruence.
Qed.
Lemma onDidRunOperation_newLoop_cons k v new old (uris : list Uri) :
  onDidRunOperation_newLoop ((k, v) :: new) (old, uris) =
  onDidRunOperation_newLoop new
    (if Map_has k old then (Map_delete k old, uris)
     else (old, uris ++ [Uri_parse k])).
Proof. reflexivity. Qed.

(** The first loop leaves in [this.decorations] the entries whose key is
    not in [newDecorations] and pushes the keys that were not in it. *)
Lemma onDidRunOperation_newLoop_spec new old (uris : list Uri) :
  Map_wf new →
  onDidRunOperation_newLoop new (old, uris) =
  (filter (λ kv, kv.1 ∉ Map_keys new) old,
   uris ++ (Uri_parse <$> filter (λ k, k ∉ Map_keys old) (Map_keys new))).
Proof.
  revert old uris. induction new as [|[k v] new IH]; intros old uris Hwf.
  - cbn. rewrite app_nil_r. f_equal. symmetry. apply filter_all_elem.
    intros x _. apply not_elem_of_nil.
  - apply NoDup_cons in Hwf as [Hk Hwf]. fold (Map_keys new) in Hk.
    rewrite onDidRunOperation_newLoop_cons.
    change (Map_keys ((k, v) :: new)) with (k :: Map_keys new).
    destruct (Map_has k old) eqn:Hhas.
    + apply Map_has_true in Hhas. rewrite IH by done. f_equal.
      * rewrite Map_delete_filter, list_filter_filter. apply list_filter_iff.
        intros [k' v']. cbn [fst]. rewrite not_elem_of_cons. tauto.
      * f_equal. f_equal. rewrite filter_cons, decide_False by tauto.
        apply filter_ext_elem. intros x Hx.
        rewrite Map_keys_delete_elem.
        assert (x ≠ k) by (intros ->; done). tauto.
    + apply Map_has_false in Hhas. rewrite IH by done. f_equal.
      * apply filter_ext_elem. intros [k' v'] Hin. cbn [fst].
        rewrite not_elem_of_cons.
        assert (k' ≠ k); [|tauto].
        intros ->. apply Hhas. apply list_elem_of_fmap. by exists (k, v').
      * rewrite <- app_assoc. f_equal.
        by rewrite filter_cons, decide_True by done.
Qed.

Lemma onDidRunOperation_oldLoop_spec old (uris : list Uri) :
  onDidRunOperation_oldLoop old uris = uris ++ (Uri_parse <$> Map_keys old).
Proof.
  revert uris. induction old as [|[k v] old IH]; intros uris.
  - cbn. by rewrite app_nil_r.
  - change (onDidRunOperation_oldLoop ((k, v) :: old) uris)
      with (onDidRunOperation_oldLoop old (uris ++ [Uri_parse k])).
    rewrite IH, <- app_assoc. done.
Qed.

Lemma onDidRunOperation_loops new old :
  Map_wf new →
  onDidRunOperation_oldLoop (onDidRunOperation_newLoop new (old, [])).1
    (onDidRunOperation_newLoop new (old, [])).2 =
  Uri_parse <$> changedKeys old new.
Proof.
  intros Hwf. rewrite onDidRunOperation_newLoop_spec by done. cbn [fst snd].
  rewrite onDidRunOperation_oldLoop_spec, app_nil_l.
  unfold changedKeys. rewrite fmap_app. f_equal. f_equal.
  apply Map_keys_filter_notin.
Qed.

Lemma onDidRunOperation_decorations repository (this : GitDecorationProvider Uri) :
  gd_decorations (onDidRunOperation repository this) =
  collectDecorationData (workingTreeGroup repository)
    (collectDecorationData (indexGroup repository) Map_new).
Proof.
  unfold onDidRunOperation.
  by destruct (onDidRunOperation_newLoop _ _).
Qed.

Lemma onDidRunOperation_decorations_wf repository (this : GitDecorationProvider Uri) :
  Map_wf (gd_decorations (onDidRunOperation repository this)).
Proof.
  rewrite onDidRunOperation_decorations.
  apply collectDecorationData_wf, collectDecorationData_wf, Map_wf_new.
Qed.

Lemma onDidRunOperation_fired repository (this : GitDecorationProvider Uri) :
  gd_fired (onDidRunOperation repository this) =
  gd_fired this ++
    [Uri_parse <$> changedKeys (gd_decorations this)
                     (gd_decorations (onDidRunOperation repository this))].
Proof.
  rewrite <- onDidRunOperation_loops by apply onDidRunOperation_decorations_wf.
  rewrite onDidRunOperation_decorations. unfold onDidRunOperation.
  by destruct (onDidRunOperation_newLoop _ _).
Qed.

Lemma changedKeys_elem {V : Type} (old new : JsMap string V) k :
  k ∈ changedKeys old new ↔
  (k ∈ Map_keys new ∧ k ∉ Map_keys old) ∨ (k ∈ Map_keys old ∧ k ∉ Map_keys new).
Proof.
  unfold changedKeys. rewrite elem_of_app, !list_elem_of_filter. tauto.
Qed.

Lemma changedKeys_NoDup {V : Type} (old new : JsMap string V) :
  Map_wf old → Map_wf new → NoDup (changedKeys old new).
Proof.
  intros Hold Hnew. unfold changedKeys. apply NoDup_app. split_and!.
  - by apply NoDup_filter.
  - intros k [Hk _]%list_elem_of_filter [_ Hk']%list_elem_of_filter. done.
  - by apply NoDup_filter.
Qed.
End GitDecorationProviderFacts.

(** C1: the uris fired by [onDidRunOperation] are the keys in exactly one of
    the old and the recomputed map: a key of the new map that the old one
    lacks is fired, a key of the old map that the new one lacks is fired, a
    key in both is not, whatever the two values are.  With old map
    [{x:D1, y:D2}] and new map [{y:D2, z:D3}] the fired uris are [z] and [x];
    with old map [{y:D1, z:D3}] and the same new map nothing is fired although
    the decoration of [y] differs. *)
Theorem onDidRunOperation_fires_symmetric_difference :
  (∀ (Uri : Type) (api : UriApi Uri) (repository : Repository Uri)
     (this : GitDecorationProvider Uri),
     let old := gd_decorations this in
     let new := gd_decorations (onDidRunOperation repository this) in
     gd_fired (onDidRunOperation repository this) =
       gd_fired this ++ [Uri_parse <$> changedKeys old new] ∧
     ∀ k, k ∈ changedKeys old new ↔
          (k ∈ Map_keys new ∧ k ∉ Map_keys old) ∨
          (k ∈ Map_keys old ∧ k ∉ Map_keys new)) ∧
  (let this := exampleProvider [("file:///repo/x", D1); ("file:///repo/y", D2)] in
   gd_decorations (onDidRunOperation exampleRepository this) =
     [("file:///repo/y", D2); ("file:///repo/z", D3)] ∧
   gd_fired (onDidRunOperation exampleRepository this) =
     [[file "/repo/z"; file "/repo/x"]]) ∧
  (let this := exampleProvider [("file:///repo/y", D1); ("file:///repo/z", D3)] in
   gd_decorations (onDidRunOperation exampleRepository this) =
     [("file:///repo/y", D2); ("file:///repo/z", D3)] ∧
   gd_fired (onDidRunOperation exampleRepository this) = [[]]).
Proof.
  split_and!.
  - intros Uri api repository this old new. split.
    + apply onDidRunOperation_fired.
    + intros k. apply changedKeys_elem.
  - by vm_compute.
  - by vm_compute.
Qed.

(** C9: [provideDecoration] of the aggregator returns what the decoration map
    holds under the key of the uri, nothing when the key is absent, and the
    provider (its map, its registrations, the events it has fired) is as it
    was. *)
Theorem GitDecorationProvider_provideDecoration_pure_lookup
    (Uri : Type) (api : UriApi Uri) (uri : Uri) (this : GitDecorationProvider Uri) :
  Map_wf (gd_decorations this) →
  let '(result, this') := GitDecorationProvider_provideDecoration uri this in
  this' = this ∧
  (∀ d, result = Some d ↔ (Uri_toString uri, d) ∈ gd_decorations this) ∧
  (result = None ↔ Uri_toString uri ∉ Map_keys (gd_decorations this)).
Proof.
  intros Hwf. cbn. split_and!.
  - done.
  - intros d. split; [apply Map_get_Some_elem | by apply Map_get_elem].
  - apply Map_get_None.
Qed.

(** C10: the recomputed map is filled from the index group first and from
    the working tree group second.  Under a key it holds the decoration of the
    last decorated resource state of the working tree group with that key, if
    there is one, and else that of the index group; so a path decorated in
    both groups gets a decoration of the working tree group.  A resource
    state without decoration adds no entry: the keys of the map are the keys
    of the decorated resource states. *)
Theorem onDidRunOperation_working_tree_wins
    (Uri : Type) (api : UriApi Uri) (repository : Repository Uri)
    (this : GitDecorationProvider Uri) (k : string) :
  let new := gd_decorations (onDidRunOperation repository this) in
  let index := resourceStates (indexGroup repository) in
  let workingTree := resourceStates (workingTreeGroup repository) in
  let decorated (r : Resource Uri) :=
    Uri_toString (original r) = k ∧ is_Some (resourceDecoration r) in
  new = collectDecorationData (workingTreeGroup repository)
          (collectDecorationData (indexGroup repository) Map_new) ∧
  Map_get k new =
    match lastDecoration k workingTree with
    | Some d => Some d
    | None => lastDecoration k index
    end ∧
  ((∃ r, r ∈ index ∧ decorated r) → (∃ r, r ∈ workingTree ∧ decorated r) →
   ∃ r d, r ∈ workingTree ∧ Uri_toString (original r) = k ∧
          resourceDecoration r = Some d ∧ Map_get k new = Some d) ∧
  (k ∈ Map_keys new ↔ ∃ r, r ∈ index ++ workingTree ∧ decorated r) ∧
  Map_wf new.
Proof.
  intros new index workingTree decorated.
  assert (Hnew : new = collectDecorationData (workingTreeGroup repository)
            (collectDecorationData (indexGroup repository) Map_new))
    by apply onDidRunOperation_decorations.
  assert (Hget : Map_get k new =
    match lastDecoration k workingTree with
    | Some d => Some d
    | None => lastDecoration k index
    end).
  { rewrite Hnew, !collectDecorationData_get. fold workingTree index.
    destruct (lastDecoration k workingTree); [done|].
    by destruct (lastDecoration k index). }
  split_and!; [done | done | | | apply onDidRunOperation_decorations_wf].
  - intros _ (r & Hr & Hk & [d Hd]).
    destruct (lastDecoration k workingTree) as [d'|] eqn:Hlast.
    + apply lastDecoration_Some in Hlast as (r' & ? & ? & ?). by exists r', d'.
    + rewrite lastDecoration_None in Hlast. rewrite (Hlast r Hr Hk) in Hd. done.
  - rewrite <- (lastDecoration_app k index workingTree) in Hget.
    destruct (decide (k ∈ Map_keys new)) as [Hin|Hin].
    + split; [intros _|done].
      destruct (Map_get k new) as [d|] eqn:Hd.
      * symmetry in Hget. apply lastDecoration_Some in Hget as (r & ? & ? & ?).
        exists r. split; [done|]. split; [done|]. by exists d.
      * apply Map_get_None in Hd. done.
    + split; [done|]. intros (r & Hr & Hk & [d Hd]).
      apply Map_get_None in Hin. rewrite Hin in Hget. symmetry in Hget.
      rewrite lastDecoration_None in Hget. rewrite (Hget r Hr Hk) in Hd. done.
Qed.

(** ** GitIgnoreDecorationProvider *)

Lemma submseteq_NoDup {A : Type} (l k : list A) : l ⊆+ k → NoDup k → NoDup l.
Proof.
  induction 1 as [|x l1 l2 Hsub IH|x y l|x l1 l2 Hsub IH|l1 l2 l3 _ IH1 _ IH2].
  - done.
  - rewrite !NoDup_cons. intros [Hx Hnd]. split; [|auto].
    intros Hx'. apply Hx. by eapply elem_of_submseteq.
  - intros Hnd. eapply NoDup_Permutation_proper; [|exact Hnd]. apply Permutation_swap.
  - rewrite NoDup_cons. intros [_ Hnd]. auto.
  - auto.
Qed.

Lemma filter_fst_NoDup_length {A B : Type} `{EqDecision A} (a : A) (l : list (A * B)) :
  NoDup l.*1 → length (filter (λ e, e.1 = a) l) ≤ 1.
Proof.
  induction l as [|[a0 b0] l IH]; csimpl; [lia|].
  rewrite NoDup_cons. intros [Ha0 Hnd]. rewrite filter_cons. cbn [fst].
  destruct (decide (a0 = a)) as [->|]; [|auto].
  rewrite filter_none_elem; [cbn; lia|].
  intros [a1 b1] Hin Heq. cbn in Heq. subst a1.
  apply Ha0. apply list_elem_of_fmap. by exists (a, b1).
Qed.

Lemma NoDup_bind_elem {A B : Type} (f : A → list B) (l : list A) (x : A) :
  NoDup (l ≫= f) → x ∈ l → NoDup (f x).
Proof.
  intros Hnd (l1 & l2 & ->)%list_elem_of_split.
  rewrite bind_app, bind_cons in Hnd.
  apply NoDup_app in Hnd as (_ & _ & Hnd). by apply NoDup_app in Hnd as (Hnd & _ & _).
Qed.

Lemma Map_set_values_submseteq {K V : Type} `{EqDecision K} (k : K) (v : V)
    (m : JsMap K V) :
  (Map_set k v m).*2 ⊆+ v :: m.*2.
Proof.
  induction m as [|[k0 v0] m IH]; csimpl; [done|].
  destruct (decide (k = k0)); csimpl.
  - apply submseteq_skip, submseteq_cons. done.
  - etrans; [apply submseteq_skip, IH|]. apply submseteq_swap.
Qed.

Lemma filter_settled_unique {Err : Type} (g : string * PromiseId → Settle Err)
    (q : JsMap string PromiseId) (key : string) (id : PromiseId) :
  NoDup q.*2 → (key, id) ∈ q →
  filter (λ e : PromiseId * Settle Err, e.1 = id) ((λ kv, (kv.2, g kv)) <$> q) =
  [(id, g (key, id))].
Proof.
  induction q as [|[k0 v0] q IH]; csimpl.
  - intros _ Hin. by apply elem_of_nil in Hin.
  - rewrite NoDup_cons. intros [Hv0 Hnd] Hin. rewrite filter_cons. cbn [fst snd].
    apply elem_of_cons in Hin as [[= <- <-]|Hin].
    + rewrite decide_True by done. f_equal.
      apply filter_none_elem. intros [id' st] Hin Heq. cbn in Heq. subst id'.
      apply list_elem_of_fmap in Hin as ([k1 v1] & [= -> _] & Hin). cbn in Hv0.
      apply Hv0. apply list_elem_of_fmap. by exists (k1, v1).
    + rewrite decide_False; [by apply IH|].
      intros ->. apply Hv0. apply list_elem_of_fmap. by exists (key, id).
Qed.

Section GitIgnoreDecorationProviderFacts.
Context {Uri Err : Type} `{UriApi Uri}.
Implicit Types (w : World Err) (op : Op Uri Err) (ops : list (Op Uri Err)).
Implicit Types (q : JsMap string PromiseId) (log : list (PromiseId * Settle Err)).

Lemma checkIgnore_onFulfilled_spec q ignoreSet log :
  checkIgnore_onFulfilled q ignoreSet log = log ++ settleBatch q (inl ignoreSet).
Proof.
  revert log. induction q as [|[k v] q IH]; intros log.
  - cbn. by rewrite app_nil_r.
  - change (checkIgnore_onFulfilled ((k, v) :: q) ignoreSet log)
      with (checkIgnore_onFulfilled q ignoreSet
              (log ++ [(v, Resolve (bool_decide (k ∈ ignoreSet)))])).
    rewrite IH, <- app_assoc. done.
Qed.

Lemma checkIgnore_onRejected_spec q (err : Err) log :
  checkIgnore_onRejected q err log = log ++ settleBatch q (inr err).
Proof.
  revert log. induction q as [|[k v] q IH]; intros log.
  - cbn. by rewrite app_nil_r.
  - change (checkIgnore_onRejected ((k, v) :: q) err log)
      with (checkIgnore_onRejected q err (log ++ [(v, Reject err)])).
    rewrite IH, <- app_assoc. done.
Qed.

Lemma settleBatch_ids q (r : gset string + Err) : (settleBatch q r).*1 = q.*2.
Proof.
  unfold settleBatch. rewrite <- list_fmap_compose. by apply list_fmap_ext.
Qed.

Lemma checkIgnore_completes_settled i r w c :
  w_calls w !! i = Some c → ci_completed c = false →
  w_settled (checkIgnore_completes i r w) = w_settled w ++ settleBatch (ci_queue c) r.
Proof.
  intros Hc Hpending. unfold checkIgnore_completes. rewrite Hc, Hpending. cbn.
  destruct r; [apply checkIgnore_onFulfilled_spec | apply checkIgnore_onRejected_spec].
Qed.

Lemma pendingIds_completes (calls : list CheckIgnoreCall) i c :
  calls !! i = Some c → ci_completed c = false →
  pendingIds calls ≡ₚ
  (ci_queue c).*2 ++
  pendingIds (<[i := {| ci_paths := ci_paths c; ci_queue := ci_queue c;
                        ci_completed := true |}]> calls).
Proof.
  intros Hc Hpending. unfold pendingIds.
  rewrite insert_take_drop by (by eapply lookup_lt_Some).
  rewrite <- (take_drop_middle calls i c) at 1 by done.
  rewrite !bind_app, !bind_cons. unfold callIds at 2 4. rewrite Hpending. cbn.
  solve_Permutation.
Qed.

Lemma pendingIds_elem (calls : list CheckIgnoreCall) i c key id :
  calls !! i = Some c → ci_completed c = false → (key, id) ∈ ci_queue c →
  id ∈ pendingIds calls.
Proof.
  intros Hc Hpending Hin. apply list_elem_of_bind. exists c. split.
  - unfold callIds. rewrite Hpending. apply list_elem_of_fmap. by exists (key, id).
  - by eapply list_elem_of_lookup_2.
Qed.

Lemma step_promises w op :
  w_promises (step w op) =
  match op with Query _ => S (w_promises w) | _ => w_promises w end.
Proof.
  destruct op as [uri|dt|i r|]; cbn; try done.
  - unfold elapse. cbn. destruct (gi_timer (w_provider w)); [|done].
    by destruct (decide _).
  - unfold checkIgnore_completes. destruct (w_calls w !! i) as [c|]; [|done].
    by destruct (ci_completed c).
Qed.

(** A step makes no promise known twice: the only new one is the promise
    that a query creates. *)
Lemma step_ids w op :
  World_ids (step w op) ⊆+
  match op with Query _ => w_promises w :: World_ids w | _ => World_ids w end.
Proof.
  destruct op as [uri|dt|i r|]; unfold World_ids; cbn.
  - etrans; [apply submseteq_skips_l, submseteq_skips_r, Map_set_values_submseteq|].
    apply Permutation_submseteq. solve_Permutation.
  - unfold elapse. cbn. destruct (gi_timer (w_provider w)) as [due|]; [|done].
    destruct (decide _); [|done]. cbn.
    unfold pendingIds. rewrite bind_app, bind_singleton. unfold callIds at 2. cbn.
    unfold Map_copy. apply Permutation_submseteq. solve_Permutation.
  - unfold checkIgnore_completes. destruct (w_calls w !! i) as [c|] eqn:Hc; [|done].
    destruct (ci_completed c) eqn:Hpending; [done|]. cbn.
    assert ((match r with
             | inl ignoreSet => checkIgnore_onFulfilled (ci_queue c) ignoreSet (w_settled w)
             | inr err => checkIgnore_onRejected (ci_queue c) err (w_settled w)
             end).*1 = (w_settled w).*1 ++ (ci_queue c).*2) as ->.
    { rewrite <- (settleBatch_ids _ r), <- fmap_app. f_equal.
      destruct r; [apply checkIgnore_onFulfilled_spec | apply checkIgnore_onRejected_spec]. }
    apply Permutation_submseteq.
    rewrite (pendingIds_completes (w_calls w) i c) by done. solve_Permutation.
  - apply submseteq_skips_l. cbn. apply submseteq_inserts_l. done.
Qed.

Lemma step_inv w op : World_inv w → World_inv (step w op).
Proof.
  intros [Hnd Hcreated].
  assert (Hnew : NoDup (w_promises w :: World_ids w)).
  { apply NoDup_cons. split; [|done]. intros Hin%Hcreated. lia. }
  pose proof (step_ids w op) as Hids. pose proof (step_promises w op) as Hp.
  split.
  - eapply submseteq_NoDup; [exact Hids|]. destruct op; try done.
  - intros id Hin. eapply elem_of_submseteq in Hin; [|exact Hids]. rewrite Hp.
    destruct op; auto.
    apply elem_of_cons in Hin as [->|Hin%Hcreated]; lia.
Qed.

Lemma run_snoc ops op w : run (ops ++ [op]) w = step (run ops w) op.
Proof. unfold run. by rewrite fold_left_app. Qed.

Lemma run_app ops1 ops2 w : run (ops1 ++ ops2) w = run ops2 (run ops1 w).
Proof. unfold run. by rewrite fold_left_app. Qed.

Lemma run_inv ops w : World_inv w → World_inv (run ops w).
Proof.
  intros Hinv. induction ops as [|op ops IH] using rev_ind; [done|].
  rewrite run_snoc. by apply step_inv.
Qed.

Lemma World_init_inv (repository : Repository Uri) h :
  World_inv (World_init (Err:=Err) repository h).
Proof.
  split.
  - apply NoDup_nil_2.
  - intros id Hin. by apply elem_of_nil in Hin.
Qed.

Lemma reachable_inv (repository : Repository Uri) h ops :
  World_inv (run ops (World_init (Err:=Err) repository h)).
Proof. apply run_inv, World_init_inv. Qed.

(** In a world that satisfies the invariant, completing a call in flight
    calls the settling functions of each of its promises once, and these
    promises had not been settled before. *)
Lemma checkIgnore_completes_filter w i c r key id :
  World_inv w →
  w_calls w !! i = Some c → ci_completed c = false → (key, id) ∈ ci_queue c →
  filter (λ e, e.1 = id) (w_settled w) = [] ∧
  filter (λ e, e.1 = id) (w_settled (checkIgnore_completes i r w)) =
    [(id, match r with
          | inl ignoreSet => Resolve (bool_decide (key ∈ ignoreSet))
          | inr err => Reject err
          end)].
Proof.
  intros [Hnd _] Hc Hpending Hin.
  assert (Hid : id ∈ pendingIds (w_calls w)) by by eapply pendingIds_elem.
  unfold World_ids in Hnd. apply NoDup_app in Hnd as (_ & Hdisj & Hnd).
  apply NoDup_app in Hnd as (_ & _ & Hnd).
  assert (Hold : filter (λ e : PromiseId * Settle Err, e.1 = id) (w_settled w) = []).
  { apply filter_none_elem. intros [id' st] Hin' Heq. cbn in Heq. subst id'.
    apply (Hdisj id).
    - apply list_elem_of_fmap. by exists (id, st).
    - apply elem_of_app. by right. }
  split; [done|].
  rewrite (checkIgnore_completes_settled i r w c) by done.
  rewrite filter_app, Hold, app_nil_l.
  assert (Hq : NoDup (ci_queue c).*2).
  { apply (NoDup_bind_elem callIds (w_calls w) c) in Hnd.
    - unfold callIds in Hnd. by rewrite Hpending in Hnd.
    - by eapply list_elem_of_lookup_2. }
  unfold settleBatch.
  apply (filter_settled_unique (λ kv, match r with
          | inl ignoreSet => Resolve (bool_decide (kv.1 ∈ ignoreSet))
          | inr err => Reject err
          end)); done.
Qed.

Lemma step_live w op :
  liveIds (step w op) ⊆+
  match op with Query _ => w_promises w :: liveIds w | _ => liveIds w end.
Proof.
  destruct op as [uri|dt|i r|]; unfold liveIds; cbn.
  - etrans; [apply submseteq_skips_r, Map_set_values_submseteq|]. done.
  - unfold elapse. cbn. destruct (gi_timer (w_provider w)) as [due|]; [|done].
    destruct (decide _); [|done]. cbn.
    unfold pendingIds. rewrite bind_app, bind_singleton. unfold callIds at 2. cbn.
    unfold Map_copy. apply Permutation_submseteq. solve_Permutation.
  - unfold checkIgnore_completes. destruct (w_calls w !! i) as [c|] eqn:Hc; [|done].
    destruct (ci_completed c) eqn:Hpending; [done|]. cbn.
    rewrite (pendingIds_completes (w_calls w) i c) by done.
    apply submseteq_skips_l, submseteq_inserts_l. done.
  - cbn. apply submseteq_inserts_l. done.
Qed.

(** A step only calls settling functions that were held somewhere. *)
Lemma step_settled w op :
  ∃ extra, w_settled (step w op) = w_settled w ++ extra ∧
           ∀ e, e ∈ extra → e.1 ∈ liveIds w.
Proof.
  destruct op as [uri|dt|i r|]; cbn.
  - exists []. by rewrite app_nil_r; split; [|intros e ?%elem_of_nil].
  - exists []. split; [|by intros e ?%elem_of_nil]. rewrite app_nil_r.
    unfold elapse. cbn. destruct (gi_timer (w_provider w)); [|done].
    by destruct (decide _).
  - destruct (w_calls w !! i) as [c|] eqn:Hc; cycle 1.
    { exists []. split; [|by intros e ?%elem_of_nil].
      unfold checkIgnore_completes. by rewrite Hc, app_nil_r. }
    destruct (ci_completed c) eqn:Hpending.
    { exists []. split; [|by intros e ?%elem_of_nil].
      unfold checkIgnore_completes. by rewrite Hc, Hpending, app_nil_r. }
    exists (settleBatch (ci_queue c) r). split.
    + by apply checkIgnore_completes_settled.
    + intros [id st] ([key id'] & [= -> _] & Hin)%list_elem_of_fmap. cbn.
      apply elem_of_app. right. by eapply pendingIds_elem.
  - exists []. by rewrite app_nil_r; split; [|intros e ?%elem_of_nil].
Qed.

(** Once the settling functions of a created promise are held nowhere, they
    are never called again. *)
Lemma settle_count_stable ops w id :
  id < w_promises w → id ∉ liveIds w →
  settle_count id (run ops w) = settle_count id w.
Proof.
  intros Hcreated Hdead.
  enough (settle_count id (run ops w) = settle_count id w ∧
          id < w_promises (run ops w) ∧ id ∉ liveIds (run ops w)) as [? _]; [done|].
  induction ops as [|op ops (IHcount & IHcreated & IHdead)] using rev_ind; [done|].
  rewrite run_snoc. set (w' := run ops w) in *. split_and!.
  - rewrite <- IHcount. unfold settle_count.
    destruct (step_settled w' op) as (extra & -> & Hextra).
    rewrite filter_app, length_app.
    rewrite (filter_none_elem _ extra); [cbn; lia|].
    intros e He Heq. apply IHdead. rewrite <- Heq. by apply Hextra.
  - rewrite step_promises. destruct op; lia.
  - intros Hin. eapply elem_of_submseteq in Hin; [|apply step_live].
    destruct op; try done.
    apply elem_of_cons in Hin as [->|Hin]; [lia | done].
Qed.

Lemma Map_set_elem {V : Type} (k : string) (v : V) (m : JsMap string V) :
  (k, v) ∈ Map_set k v m.
Proof.
  induction m as [|[k0 v0] m IH]; cbn.
  - left.
  - destruct (decide (k = k0)); [left | by right].
Qed.

Lemma query_state w (uri : Uri) :
  gi_timer (w_provider (step w (Query uri))) = Some (w_now (step w (Query uri)) + 500) ∧
  w_calls (step w (Query uri)) = w_calls w ∧
  w_settled (step w (Query uri)) = w_settled w ∧
  gi_checkIgnoreQueue (w_provider (step w (Query uri))) =
    Map_set (Uri_fsPath uri) (w_promises w) (gi_checkIgnoreQueue (w_provider w)).
Proof. done. Qed.

Lemma elapse_early w (dt due : nat) :
  gi_timer (w_provider w) = Some due → w_now w + dt < due →
  gi_timer (w_provider (elapse dt w)) = Some due ∧
  w_calls (elapse dt w) = w_calls w ∧
  w_settled (elapse dt w) = w_settled w ∧
  gi_checkIgnoreQueue (w_provider (elapse dt w)) = gi_checkIgnoreQueue (w_provider w).
Proof.
  intros Htimer Hdue. unfold elapse. cbn. rewrite Htimer.
  by rewrite decide_False by lia.
Qed.

Lemma elapse_due w (dt due : nat) :
  gi_timer (w_provider w) = Some due → due ≤ w_now w + dt →
  gi_checkIgnoreQueue (w_provider (elapse dt w)) = [] ∧
  w_calls (elapse dt w) = w_calls w ++
    [{| ci_paths := Map_keys (gi_checkIgnoreQueue (w_provider w));
        ci_queue := gi_checkIgnoreQueue (w_provider w);
        ci_completed := false |}].
Proof.
  intros Htimer Hdue. unfold elapse. cbn. rewrite Htimer.
  by rewrite decide_True by lia.
Qed.

(** During a burst whose gaps are shorter than 500 ms no call is made: the
    timeout is pending, 500 ms after the last query, and the queue holds the
    keys it held plus those of the queries. *)
Lemma burst_state w (uri0 : Uri) (rest : list (nat * Uri)) :
  Forall (λ gu, gu.1 < 500) rest →
  let w1 := run (burst uri0 rest) w in
  gi_timer (w_provider w1) = Some (w_now w1 + 500) ∧
  w_calls w1 = w_calls w ∧
  w_settled w1 = w_settled w ∧
  ∀ key, key ∈ Map_keys (gi_checkIgnoreQueue (w_provider w1)) ↔
         key ∈ Map_keys (gi_checkIgnoreQueue (w_provider w)) ∨
         key ∈ Uri_fsPath <$> (uri0 :: rest.*2).
Proof.
  induction rest as [|[gap uri] rest IH] using rev_ind; intros Hgaps w1.
  - change w1 with (step w (Query uri0)).
    destruct (query_state w uri0) as (-> & -> & -> & ->).
    split_and!; [done..|]. intros key.
    rewrite Map_keys_set_elem, fmap_cons, list_elem_of_singleton. tauto.
  - apply Forall_app in Hgaps as [Hgaps Hgap]. apply Forall_inv in Hgap. cbn in Hgap.
    destruct (IH Hgaps) as (Htimer & Hcalls & Hsettled & Hkeys). clear IH.
    assert (Hrun : w1 = step (elapse gap (run (burst uri0 rest) w)) (Query uri)).
    { unfold w1, burst. rewrite bind_app, app_comm_cons, run_app. done. }
    set (w0 := run (burst uri0 rest) w) in *. clearbody w1. subst w1.
    destruct (elapse_early w0 gap _ Htimer) as (_ & Hc & Hs & Hq); [lia|].
    destruct (query_state (elapse gap w0) uri) as (-> & -> & -> & ->).
    rewrite Hc, Hs, Hq. split_and!; [done..|]. intros key.
    rewrite Map_keys_set_elem, Hkeys.
    repeat (rewrite fmap_cons || rewrite fmap_app). rewrite fmap_nil.
    rewrite !elem_of_cons, elem_of_app, list_elem_of_singleton. cbn. tauto.
Qed.

(** Batch coalescing: a burst of queries whose gaps are shorter than 500 ms,
    followed by 500 ms or more of silence, makes one [checkIgnore] call, with
    the keys that were queued before and those of the queries of the burst. *)
Lemma batch_coalescing w (uri0 : Uri) (rest : list (nat * Uri)) (dt : nat) :
  Forall (λ gu, gu.1 < 500) rest → 500 ≤ dt →
  let w' := run (burst uri0 rest ++ [Elapse dt]) w in
  gi_checkIgnoreQueue (w_provider w') = [] ∧
  ∃ c, w_calls w' = w_calls w ++ [c] ∧ ci_completed c = false ∧
       ci_paths c = Map_keys (ci_queue c) ∧
       ∀ key, key ∈ ci_paths c ↔
              key ∈ Map_keys (gi_checkIgnoreQueue (w_provider w)) ∨
              key ∈ Uri_fsPath <$> (uri0 :: rest.*2).
Proof.
  intros Hgaps Hdt w'.
  destruct (burst_state w uri0 rest Hgaps) as (Htimer & Hcalls & _ & Hkeys).
  unfold w'. rewrite run_snoc. set (w1 := run (burst uri0 rest) w) in *.
  destruct (elapse_due w1 dt _ Htimer) as [Hq Hc]; [lia|].
  change (step w1 (Elapse dt)) with (elapse dt w1). rewrite Hq, Hc, Hcalls.
  split; [done|]. eexists. split_and!; [done..|]. exact Hkeys.
Qed.
End GitIgnoreDecorationProviderFacts.

(** C2: when the lookup of a dispatched batch succeeds, the settling
    functions of the batch are called in the order of the batch, each with
    [resolve], with [true] when the key of the entry is in the returned set
    and [false] otherwise; each promise of the batch is resolved by this one
    call. *)
Theorem checkIgnore_success_resolves_by_membership
    (Uri Err : Type) (api : UriApi Uri) (w : World Err) (i : nat)
    (c : CheckIgnoreCall) (ignoreSet : gset string) :
  World_reachable (Uri:=Uri) w →
  w_calls w !! i = Some c → ci_completed c = false →
  w_settled (checkIgnore_completes i (inl ignoreSet) w) =
    w_settled w ++
    ((λ kv, (kv.2, Resolve (bool_decide (kv.1 ∈ ignoreSet)))) <$> ci_queue c) ∧
  ∀ key id, (key, id) ∈ ci_queue c →
    filter (λ e, e.1 = id) (w_settled (checkIgnore_completes i (inl ignoreSet) w)) =
    [(id, Resolve (bool_decide (key ∈ ignoreSet)))].
Proof.
  intros (repository & h & ops & ->) Hc Hpending. split.
  - rewrite (checkIgnore_completes_settled i _ _ c) by done. reflexivity.
  - intros key id Hin.
    by apply (checkIgnore_completes_filter _ i c (inl ignoreSet) key id
                (reachable_inv repository h ops)).
Qed.

(** C3: when the lookup of a dispatched batch fails with an error, the
    settling functions of the batch are called in the order of the batch,
    each with [reject] and that error; each promise of the batch is rejected
    by this one call and none is resolved. *)
Theorem checkIgnore_failure_rejects_all
    (Uri Err : Type) (api : UriApi Uri) (w : World Err) (i : nat)
    (c : CheckIgnoreCall) (err : Err) :
  World_reachable (Uri:=Uri) w →
  w_calls w !! i = Some c → ci_completed c = false →
  w_settled (checkIgnore_completes i (inr err) w) =
    w_settled w ++ ((λ kv, (kv.2, Reject err)) <$> ci_queue c) ∧
  ∀ key id, (key, id) ∈ ci_queue c →
    filter (λ e, e.1 = id) (w_settled (checkIgnore_completes i (inr err) w)) =
    [(id, Reject err)].
Proof.
  intros (repository & h & ops & ->) Hc Hpending. split.
  - rewrite (checkIgnore_completes_settled i _ _ c) by done. reflexivity.
  - intros key id Hin.
    by apply (checkIgnore_completes_filter _ i c (inr err) key id
                (reachable_inv repository h ops)).
Qed.

(** C4: a dispatch empties the queue, makes one more [checkIgnore] call,
    whose argument is the keys that were in the queue and whose continuations
    hold the entries that were in the queue, and calls no settling function;
    a query that arrives afterwards is alone in the queue and leaves the calls
    as they are. *)
Theorem checkIgnoreSoon_swaps_queue_and_calls_once
    (Uri Err : Type) (api : UriApi Uri) (w : World Err) :
  let queue := gi_checkIgnoreQueue (w_provider w) in
  let w' := checkIgnoreSoon_body w in
  gi_checkIgnoreQueue (w_provider w') = [] ∧
  w_calls w' = w_calls w ++
    [{| ci_paths := Map_keys queue; ci_queue := queue; ci_completed := false |}] ∧
  w_settled w' = w_settled w ∧
  ∀ uri : Uri,
    let w'' := (GitIgnoreDecorationProvider_provideDecoration uri w').2 in
    gi_checkIgnoreQueue (w_provider w'') = [(Uri_fsPath uri, w_promises w)] ∧
    w_calls w'' = w_calls w'.
Proof. cbn. split_and!; done. Qed.



(** The same from the side of one query: when a path is queried, the quiet
    period passes and the lookup of the batch returns a set, the promise of
    the query, pending until then, is fulfilled with the decoration when the
    path is in the set and with no decoration otherwise. *)
Lemma provideDecoration_end_to_end
    (Uri Err : Type) (api : UriApi Uri) (repository : Repository Uri) (h : Host)
    (ops : list (Op Uri Err)) (uri : Uri) (ignoreSet : gset string) :
  provideDecoration_then true = Some {| priority := 3; opacity := 3 # 4 |} ∧
  provideDecoration_then false = None ∧
  let w := run ops (World_init repository h) in
  let '(id, w1) := GitIgnoreDecorationProvider_provideDecoration uri w in
  let w2 := elapse 500 w1 in
  let w3 := checkIgnore_completes (length (w_calls w)) (inl ignoreSet) w2 in
  provideDecoration_result id w2 = None ∧
  provideDecoration_result id w3 =
    Some (inl (if bool_decide (Uri_fsPath uri ∈ ignoreSet)
               then Some {| priority := 3; opacity := 3 # 4 |} else None)).
Proof.
  split; [done|]. split; [done|]. intros w.
  unfold GitIgnoreDecorationProvider_provideDecoration, provideDecoration_executor.
  lazy beta iota zeta.
  match goal with |- context [elapse 500 ?x] => set (w1 := x) end.
  set (w2 := elapse 500 w1). set (w3 := checkIgnore_completes _ _ w2).
  assert (Hinv : World_inv w2).
  { replace w2 with (run (ops ++ [Query uri; Elapse 500]) (World_init repository h)).
    - apply reachable_inv.
    - rewrite run_app. reflexivity. }
  set (queue := Map_set (Uri_fsPath uri) (w_promises w)
                  (gi_checkIgnoreQueue (w_provider w))).
  set (c := {| ci_paths := Map_keys queue; ci_queue := queue; ci_completed := false |}).
  assert (Hcalls : w_calls w2 = w_calls w ++ [c]).
  { unfold w2, elapse. cbn. by rewrite decide_True by lia. }
  assert (Hc : w_calls w2 !! length (w_calls w) = Some c).
  { rewrite Hcalls. by apply list_lookup_middle. }
  destruct (checkIgnore_completes_filter w2 (length (w_calls w)) c (inl ignoreSet)
              (Uri_fsPath uri) (w_promises w) Hinv Hc eq_refl) as [Hbefore Hafter].
  { apply Map_set_elem. }
  unfold provideDecoration_result. fold w3 in Hafter. rewrite Hbefore, Hafter.
  split; [done|]. by destruct (bool_decide _).
Qed.

(** C7, amended: over every sequence of operations the settling functions of
    a promise are called at most once.  The settling functions of a promise
    that a call in flight holds have not been called, and are called once
    when that call completes, with success or with failure.  [dispose]
    empties the queue and calls no settling function. *)
Theorem settled_at_most_once
    (Uri Err : Type) (api : UriApi Uri) (repository : Repository Uri) (h : Host)
    (ops : list (Op Uri Err)) (id : PromiseId) :
  settle_count id (run ops (World_init repository h)) ≤ 1 ∧
  (∀ i c key r,
     w_calls (run ops (World_init repository h)) !! i = Some c →
     ci_completed c = false → (key, id) ∈ ci_queue c →
     settle_count id (run ops (World_init repository h)) = 0 ∧
     settle_count id (checkIgnore_completes i r (run ops (World_init repository h))) = 1) ∧
  w_settled (World_dispose (run ops (World_init repository h))) =
    w_settled (run ops (World_init repository h)) ∧
  gi_checkIgnoreQueue (w_provider (World_dispose (run ops (World_init repository h)))) = [].
Proof.
  pose proof (reachable_inv (Err:=Err) repository h ops) as Hinv.
  set (w := run ops (World_init repository h)) in *. split_and!; [| |done..].
  - destruct Hinv as [Hnd _]. unfold World_ids in Hnd.
    apply NoDup_app in Hnd as (Hnd & _ & _). by apply filter_fst_NoDup_length.
  - intros i c key r Hc Hpending Hin.
    destruct (checkIgnore_completes_filter w i c r key id Hinv Hc Hpending Hin)
      as [Hbefore Hafter].
    unfold settle_count. by rewrite Hbefore, Hafter.
Qed.

(** Counterexample to C7 as stated: a query is accepted and the provider is
    disposed of before the dispatch.  The promise of the query has been
    created, and whatever happens next its settling functions are never
    called. *)
Lemma query_abandoned_by_dispose :
  w_promises abandonedWorld = 1 ∧
  settle_count 0 abandonedWorld = 0 ∧
  ∀ ops : list (Op FileUri string), settle_count 0 (run ops abandonedWorld) = 0.
Proof.
  split; [done|]. split; [done|]. intros ops.
  rewrite settle_count_stable; [done| |].
  - vm_compute. lia.
  - vm_compute. apply not_elem_of_nil.
Qed.

(** ** GitDecorations *)

Section GitDecorationsFacts.
Context {Uri : Type} `{UriApi Uri}.
Implicit Types (this : GitDecorations Uri) (h : Host).
Implicit Types (repository : Repository Uri) (repositories : list (Repository Uri)).

Lemma disposeAll_disposed ds h : disposed (disposeAll ds h) = disposed h ++ ds.
Proof.
  revert h. induction ds as [|d ds IH]; intros h; cbn.
  - by rewrite app_nil_r.
  - unfold disposeAll in IH. rewrite IH. cbn. by rewrite <- app_assoc.
Qed.

Lemma disposeAll_registrations ds h : registrations (disposeAll ds h) = registrations h.
Proof.
  revert h. induction ds as [|d ds IH]; intros h; cbn; [done|].
  unfold disposeAll in IH. by rewrite IH.
Qed.

(** [dispose] of the registry calls [dispose] on the registry's own
    disposables and on nothing else. *)
Lemma GitDecorations_dispose_host this h :
  (GitDecorations_dispose (this, h)).2 = disposeAll (g_disposables this) h.
Proof.
  unfold GitDecorations_dispose. cbn [snd].
  generalize (disposeAll (g_disposables this) h). intros h'.
  induction (g_providers this) as [|[k v] m IH] using rev_ind; [done|].
  by rewrite Map_forEach_snoc.
Qed.

Lemma ProviderPair_dispose_disposed (pair : ProviderPair Uri) h :
  disposed (ProviderPair_dispose pair h).2 = disposed h ++ ProviderPair_handles pair.
Proof.
  unfold ProviderPair_dispose, GitDecorationProvider_dispose,
    GitIgnoreDecorationProvider_dispose, ProviderPair_handles. cbn.
  by rewrite !disposeAll_disposed, app_assoc.
Qed.

Lemma onDidOpenRepository_providers repository this h :
  ∃ pair,
    g_providers (onDidOpenRepository repository (this, h)).1 =
      Map_set (repoId repository) pair (g_providers this) ∧
    gd_repository (pp_provider pair) = repoId repository ∧
    gi_repository (pp_ignoreProvider pair) = repoId repository ∧
    disposed (onDidOpenRepository repository (this, h)).2 = disposed h.
Proof. eexists. cbn. split_and!; done. Qed.

Lemma openAll_spec repositories this h :
  let s := fold_left (λ s repository, onDidOpenRepository repository s)
             repositories (this, h) in
  NoDup (Map_keys (g_providers this) ++ (repoId <$> repositories)) →
  Map_keys (g_providers s.1) = Map_keys (g_providers this) ++ (repoId <$> repositories) ∧
  disposed s.2 = disposed h ∧
  ∀ repository, repository ∈ repositories →
    ∃ pair, Map_get (repoId repository) (g_providers s.1) = Some pair ∧
            gd_repository (pp_provider pair) = repoId repository ∧
            gi_repository (pp_ignoreProvider pair) = repoId repository.
Proof.
  induction repositories as [|r rs IH] using rev_ind; intros s Hnd.
  - cbn. rewrite app_nil_r. split_and!; [done..|]. by intros r ?%elem_of_nil.
  - unfold s. rewrite fold_left_app. cbn [fold_left].
    set (s' := fold_left _ rs (this, h)) in *.
    rewrite fmap_app, app_assoc in Hnd. cbn in Hnd.
    destruct IH as (Hkeys & Hdisp & Hget); [by apply NoDup_app in Hnd as (? & _ & _)|].
    destruct s' as [this' h'].
    destruct (onDidOpenRepository_providers r this' h') as (pair & -> & Hp1 & Hp2 & ->).
    cbn [fst snd] in *.
    assert (Hfresh : repoId r ∉ Map_keys (g_providers this')).
    { rewrite Hkeys. apply NoDup_app in Hnd as (_ & Hdisj & _).
      intros Hin. apply (Hdisj _ Hin). left. }
    split_and!.
    + rewrite Map_keys_set. apply Map_has_false in Hfresh. rewrite Hfresh, Hkeys.
      by rewrite fmap_app, app_assoc.
    + done.
    + intros r' [Hin| ->%list_elem_of_singleton]%elem_of_app.
      * destruct (Hget r' Hin) as (pair' & Hg & ? & ?). exists pair'.
        split_and!; [|done..]. rewrite Map_get_set, decide_False; [done|].
        intros Heq. apply Hfresh. rewrite <- Heq. apply Map_has_true.
        unfold Map_has. by rewrite Hg.
      * exists pair. split_and!; [|done..]. by rewrite Map_get_set, decide_True.
Qed.
End GitDecorationsFacts.

(** C6: [dispose] of the registry on one tracked repository.  The pair
    tracked for the repository holds the handles 2, 3 and 4; [dispose] calls
    [dispose] on the handles 0 and 1, the two subscriptions of the registry,
    and empties the map, whereas closing the repository calls [dispose] on
    the handles of the pair. *)
Theorem GitDecorations_dispose_skips_tracked_pairs :
  let s := GitDecorations_new [exampleRepository] emptyHost in
  (ProviderPair_handles <$> Map_get 0 (g_providers s.1)) = Some [2; 3; 4] ∧
  disposed s.2 = [] ∧
  g_providers (GitDecorations_dispose s).1 = [] ∧
  disposed (GitDecorations_dispose s).2 = [0; 1] ∧
  disposed (onDidCloseRepository exampleRepository s).2 = [2; 3; 4].
Proof. by vm_compute. Qed.

(** C8: a registry constructed while repositories are open tracks one pair
    of providers for each of them, bound to that repository: the tracked
    keys are the open repositories, in order, and nothing is disposed of. *)
Theorem GitDecorations_new_tracks_open_repositories
    (Uri : Type) (api : UriApi Uri) (repositories : list (Repository Uri)) (h : Host) :
  NoDup (repoId <$> repositories) →
  let s := GitDecorations_new repositories h in
  Map_keys (g_providers s.1) = repoId <$> repositories ∧
  Map_size (g_providers s.1) = length repositories ∧
  disposed s.2 = disposed h ∧
  ∀ repository, repository ∈ repositories →
    ∃ pair, Map_get (repoId repository) (g_providers s.1) = Some pair ∧
            gd_repository (pp_provider pair) = repoId repository ∧
            gi_repository (pp_ignoreProvider pair) = repoId repository.
Proof.
  intros Hnd s. unfold GitDecorations_new in s. cbn in s.
  match goal with s := fold_left _ _ (?t, ?h0) |- _ =>
    destruct (openAll_spec repositories t h0) as (Hkeys & Hdisp & Hget); [done|]
  end.
  fold s in Hkeys, Hdisp, Hget. cbn in Hkeys, Hdisp. split_and!; [done| |done..].
  unfold Map_size. rewrite <- (length_fmap fst). fold (Map_keys (g_providers s.1)).
  by rewrite Hkeys, length_fmap.
Qed.

(** ** The theorems at concrete inputs *)

(** The batch [{a, b, c}] with the lookup result [{a, c}]: the queries for
    [a] and [c] resolve [true], the query for [b] resolves [false]. *)
Lemma checkIgnore_success_resolves_by_membership_witness :
  World_reachable (Uri:=FileUri) batchWorld ∧
  w_calls batchWorld !! 0 = Some batchCall ∧
  ci_completed batchCall = false ∧
  w_settled (checkIgnore_completes 0 (inl {["/repo/a"; "/repo/c"]}) batchWorld) =
    [(0, Resolve true); (1, Resolve false); (2, Resolve true)] ∧
  filter (λ e, e.1 = 1)
    (w_settled (checkIgnore_completes 0 (inl {["/repo/a"; "/repo/c"]}) batchWorld)) =
    [(1, Resolve false)].
Proof.
  assert (Hr : World_reachable (Uri:=FileUri) batchWorld).
  { eexists _, _, _. reflexivity. }
  assert (Hc : w_calls batchWorld !! 0 = Some batchCall).
  { vm_compute. reflexivity. }
  destruct (checkIgnore_success_resolves_by_membership FileUri string _ batchWorld 0
              batchCall {["/repo/a"; "/repo/c"]} Hr Hc eq_refl) as [Hlog Hquery].
  split_and!; [exact Hr | exact Hc | reflexivity | |].
  - rewrite Hlog. vm_compute. reflexivity.
  - etrans; [apply (Hquery "/repo/b" 1); right; left|].
    vm_compute. reflexivity.
Defined.

(** The same batch with a failing lookup: the three queries are rejected. *)
Lemma checkIgnore_failure_rejects_all_witness :
  World_reachable (Uri:=FileUri) batchWorld ∧
  w_calls batchWorld !! 0 = Some batchCall ∧
  ci_completed batchCall = false ∧
  w_settled (checkIgnore_completes 0 (inr "git failed") batchWorld) =
    [(0, Reject "git failed"); (1, Reject "git failed"); (2, Reject "git failed")] ∧
  filter (λ e, e.1 = 1)
    (w_settled (checkIgnore_completes 0 (inr "git failed") batchWorld)) =
    [(1, Reject "git failed")].
Proof.
  assert (Hr : World_reachable (Uri:=FileUri) batchWorld).
  { eexists _, _, _. reflexivity. }
  assert (Hc : w_calls batchWorld !! 0 = Some batchCall).
  { vm_compute. reflexivity. }
  destruct (checkIgnore_failure_rejects_all FileUri string _ batchWorld 0
              batchCall "git failed" Hr Hc eq_refl) as [Hlog Hquery].
  split_and!; [exact Hr | exact Hc | reflexivity | |].
  - rewrite Hlog. vm_compute. reflexivity.
  - apply (Hquery "/repo/b" 1). right. left.
Defined.


(** The query for [b] of the batch: not settled while the call is in flight,
    settled once when the call fails. *)
Lemma settled_at_most_once_witness :
  w_calls batchWorld !! 0 = Some batchCall ∧
  ci_completed batchCall = false ∧
  ("/repo/b", 1) ∈ ci_queue batchCall ∧
  settle_count 1 batchWorld = 0 ∧
  settle_count 1 (checkIgnore_completes 0 (inr "git failed") batchWorld) = 1.
Proof.
  assert (Hc : w_calls batchWorld !! 0 = Some batchCall).
  { vm_compute. reflexivity. }
  assert (Hin : ("/repo/b", 1) ∈ ci_queue batchCall).
  { right. left. }
  destruct (settled_at_most_once FileUri string _ exampleRepository emptyHost
              [Query (file "/repo/a"); Query (file "/repo/b"); Query (file "/repo/c");
               Elapse 500] 1) as (_ & Hflight & _).
  destruct (Hflight 0 batchCall "/repo/b" (inr "git failed") Hc eq_refl Hin)
    as [Hbefore Hafter].
  split_and!; [exact Hc | reflexivity | exact Hin | exact Hbefore | exact Hafter].
Defined.

(** Two repositories open at construction: two tracked pairs. *)
Lemma GitDecorations_new_tracks_open_repositories_witness :
  NoDup (repoId <$> [exampleRepository; otherRepository]) ∧
  Map_keys (g_providers (GitDecorations_new [exampleRepository; otherRepository]
                           emptyHost).1) = [0; 1] ∧
  Map_size (g_providers (GitDecorations_new [exampleRepository; otherRepository]
                           emptyHost).1) = 2.
Proof.
  assert (Hnd : NoDup (repoId <$> [exampleRepository; otherRepository])).
  { cbn. apply NoDup_cons. split.
    - intros Hin. apply list_elem_of_singleton in Hin. discriminate.
    - apply NoDup_singleton. }
  destruct (GitDecorations_new_tracks_open_repositories FileUri _
              [exampleRepository; otherRepository] emptyHost Hnd)
    as (Hkeys & Hsize & _).
  split_and!; [exact Hnd | exact Hkeys | exact Hsize].
Defined.

(** A lookup in the map [{x:D1, y:D2}]. *)
Lemma GitDecorationProvider_provideDecoration_pure_lookup_witness :
  Map_wf [("file:///repo/x", D1); ("file:///repo/y", D2)] ∧
  GitDecorationProvider_provideDecoration (file "/repo/y")
    (exampleProvider [("file:///repo/x", D1); ("file:///repo/y", D2)]) =
  (Some D2, exampleProvider [("file:///repo/x", D1); ("file:///repo/y", D2)]) ∧
  ("file:///repo/y", D2) ∈ [("file:///repo/x", D1); ("file:///repo/y", D2)].
Proof.
  assert (Hwf : Map_wf [("file:///repo/x", D1); ("file:///repo/y", D2)]).
  { unfold Map_wf. cbn. apply NoDup_cons. split.
    - intros Hin. apply list_elem_of_singleton in Hin. discriminate.
    - apply NoDup_singleton. }
  pose proof (GitDecorationProvider_provideDecoration_pure_lookup FileUri _
                (file "/repo/y")
                (exampleProvider [("file:///repo/x", D1); ("file:///repo/y", D2)])
                Hwf) as Hthm.
  cbn in Hthm. destruct Hthm as (_ & Hsome & _).
  split_and!; [exact Hwf | reflexivity | by apply Hsome].
Defined.

(** [y] is decorated in both groups of [exampleRepository]: the map holds
    the decoration of the working tree group. *)
Lemma onDidRunOperation_working_tree_wins_witness :
  ∃ r d, r ∈ resourceStates (workingTreeGroup exampleRepository) ∧
         Uri_toString (original r) = "file:///repo/y" ∧
         resourceDecoration r = Some d ∧
         Map_get "file:///repo/y"
           (gd_decorations (onDidRunOperation exampleRepository (exampleProvider []))) =
         Some d.
Proof.
  destruct (onDidRunOperation_working_tree_wins FileUri _ exampleRepository
              (exampleProvider []) "file:///repo/y") as (_ & _ & Hboth & _).
  apply Hboth.
  - exists {| original := file "/repo/y"; resourceDecoration := Some D1 |}.
    split; [left|]. split; [reflexivity | by exists D1].
  - exists {| original := file "/repo/y"; resourceDecoration := Some D2 |}.
    split; [left|]. split; [reflexivity | by exists D2].
Defined.

(** * Further properties *)

(** ** GitDecorationProvider *)

Section GitDecorationProviderMore.
Context {Uri : Type} `{UriApi Uri}.
Implicit Types (old new : JsMap string DecorationData).
Implicit Types (this : GitDecorationProvider Uri) (repository : Repository Uri).

Lemma changedKeys_same {V : Type} (m : JsMap string V) : changedKeys m m = [].
Proof.
  unfold changedKeys.
  rewrite (filter_none_elem (λ k, k ∉ Map_keys m)); [done|].
  intros k Hk Hnk. done.
Qed.

Lemma changedKeys_nil_l {V : Type} (m : JsMap string V) : changedKeys [] m = Map_keys m.
Proof.
  unfold changedKeys. cbn. rewrite app_nil_r. apply filter_all_elem.
  intros k _. apply not_elem_of_nil.
Qed.

Lemma changedKeys_nil_r {V : Type} (m : JsMap string V) : changedKeys m [] = Map_keys m.
Proof.
  unfold changedKeys. cbn. apply filter_all_elem.
  intros k _. apply not_elem_of_nil.
Qed.

Lemma collectDecorationData_undecorated (group : GitResourceGroup Uri)
    (bucket : JsMap string DecorationData) :
  (∀ r, r ∈ resourceStates group → resourceDecoration r = None) →
  collectDecorationData group bucket = bucket.
Proof.
  destruct group as [rs]. cbn [resourceStates].
  induction rs as [|r rs IH] using rev_ind; intros Hnone; [done|].
  rewrite collectDecorationData_snoc, (Hnone r).
  - apply IH. intros r' Hr'. apply Hnone, elem_of_app. by left.
  - apply elem_of_app. right. by apply list_elem_of_singleton.
Qed.

(** X1: an operation that leaves the repository as it was changes nothing:
    the second recomputation yields the same map and fires the empty list. *)
Theorem onDidRunOperation_twice repository this :
  let this1 := onDidRunOperation repository this in
  let this2 := onDidRunOperation repository this1 in
  gd_decorations this2 = gd_decorations this1 ∧
  gd_fired this2 = gd_fired this1 ++ [[]].
Proof.
  intros this1 this2.
  assert (Hsame : gd_decorations this2 = gd_decorations this1).
  { unfold this2, this1. by rewrite !onDidRunOperation_decorations. }
  split; [done|].
  unfold this2. rewrite onDidRunOperation_fired. fold this2.
  by rewrite Hsame, changedKeys_same.
Qed.

(** X2: the first operation after construction fires every decorated path
    once: the fired uris are the keys of the new map, which are distinct. *)
Theorem onDidRunOperation_first (created repository : Repository Uri) (h : Host) :
  let this := (GitDecorationProvider_new created h).1 in
  let this' := onDidRunOperation repository this in
  gd_fired this' = [Uri_parse <$> Map_keys (gd_decorations this')] ∧
  NoDup (Map_keys (gd_decorations this')).
Proof.
  intros this this'. split.
  - unfold this'. rewrite onDidRunOperation_fired. fold this'.
    change (gd_decorations this) with (@nil (string * DecorationData)).
    by rewrite changedKeys_nil_l.
  - apply onDidRunOperation_decorations_wf.
Qed.

(** X3: when no resource state of the repository carries a decoration, the
    map becomes empty and every path that had a decoration is fired, in the
    order of the old map. *)
Theorem onDidRunOperation_undecorated repository this :
  (∀ r, r ∈ resourceStates (indexGroup repository) ++
            resourceStates (workingTreeGroup repository) →
        resourceDecoration r = None) →
  gd_decorations (onDidRunOperation repository this) = [] ∧
  gd_fired (onDidRunOperation repository this) =
    gd_fired this ++ [Uri_parse <$> Map_keys (gd_decorations this)].
Proof.
  intros Hnone.
  assert (Hnew : gd_decorations (onDidRunOperation repository this) = []).
  { rewrite onDidRunOperation_decorations, !collectDecorationData_undecorated; [done|..];
      intros r Hr; apply Hnone, elem_of_app; auto. }
  split; [done|].
  by rewrite onDidRunOperation_fired, Hnew, changedKeys_nil_r.
Qed.

Lemma runOperations_snoc (snapshots : list (Repository Uri)) repository this :
  runOperations (snapshots ++ [repository]) this =
  onDidRunOperation repository (runOperations snapshots this).
Proof. unfold runOperations. by rewrite fold_left_app. Qed.

(** X4: over any sequence of operations on a new provider, the map has
    distinct keys, one list is fired per operation, and no fired list names a
    key twice. *)
Theorem runOperations_invariant (created : Repository Uri) (h : Host)
    (snapshots : list (Repository Uri)) :
  let this := runOperations snapshots (GitDecorationProvider_new created h).1 in
  Map_wf (gd_decorations this) ∧
  length (gd_fired this) = length snapshots ∧
  Forall (λ uris, ∃ keys, uris = Uri_parse <$> keys ∧ NoDup keys) (gd_fired this).
Proof.
  induction snapshots as [|repository snapshots IH] using rev_ind; intros this.
  - split_and!; [apply Map_wf_new | done | apply Forall_nil_2].
  - destruct IH as (Hwf & Hlen & Hfired).
    unfold this. rewrite runOperations_snoc.
    set (this0 := runOperations snapshots _) in *. split_and!.
    + apply onDidRunOperation_decorations_wf.
    + rewrite onDidRunOperation_fired, !length_app, Hlen. done.
    + rewrite onDidRunOperation_fired. apply Forall_app. split; [done|].
      apply Forall_singleton. eexists. split; [done|].
      apply changedKeys_NoDup; [done | apply onDidRunOperation_decorations_wf].
Qed.

(** X5: a path that had a decoration and has no decorated resource state
    when the operation completes is fired, and afterwards [provideDecoration]
    answers [undefined] for it. *)
Theorem onDidRunOperation_drops_stale repository this (uri : Uri) :
  Uri_toString uri ∈ Map_keys (gd_decorations this) →
  (∀ r, r ∈ resourceStates (indexGroup repository) ++
            resourceStates (workingTreeGroup repository) →
        Uri_toString (original r) = Uri_toString uri → resourceDecoration r = None) →
  (GitDecorationProvider_provideDecoration uri (onDidRunOperation repository this)).1 = None ∧
  ∃ uris, gd_fired (onDidRunOperation repository this) = gd_fired this ++ [uris] ∧
          Uri_parse (Uri_toString uri) ∈ uris.
Proof.
  intros Hold Hnone.
  assert (Hget : Map_get (Uri_toString uri)
                   (gd_decorations (onDidRunOperation repository this)) = None).
  { rewrite onDidRunOperation_decorations, !collectDecorationData_get.
    rewrite <- lastDecoration_None in Hnone. rewrite lastDecoration_app in Hnone.
    destruct (lastDecoration _ (resourceStates (workingTreeGroup repository))); [done|].
    by rewrite Hnone. }
  split; [done|]. eexists. split; [apply onDidRunOperation_fired|].
  apply list_elem_of_fmap. exists (Uri_toString uri). split; [done|].
  apply changedKeys_elem. right. split; [done|]. by apply Map_get_None.
Qed.

(** X21: a path that had no decoration and has a decorated resource state
    when the operation completes is fired, and afterwards [provideDecoration]
    answers with the decoration of one of its resource states. *)
Theorem onDidRunOperation_adds_new repository this (uri : Uri) (r : Resource Uri) :
  Uri_toString uri ∉ Map_keys (gd_decorations this) →
  r ∈ resourceStates (indexGroup repository) ++
      resourceStates (workingTreeGroup repository) →
  Uri_toString (original r) = Uri_toString uri →
  is_Some (resourceDecoration r) →
  (∃ r' d, r' ∈ resourceStates (indexGroup repository) ++
                resourceStates (workingTreeGroup repository) ∧
           Uri_toString (original r') = Uri_toString uri ∧
           resourceDecoration r' = Some d ∧
           (GitDecorationProvider_provideDecoration uri
              (onDidRunOperation repository this)).1 = Some d) ∧
  ∃ uris, gd_fired (onDidRunOperation repository this) = gd_fired this ++ [uris] ∧
          Uri_parse (Uri_toString uri) ∈ uris.
Proof.
  intros Hold Hr Hkey [d Hd].
  assert (Hget : Map_get (Uri_toString uri)
                   (gd_decorations (onDidRunOperation repository this)) =
                 lastDecoration (Uri_toString uri)
                   (resourceStates (indexGroup repository) ++
                    resourceStates (workingTreeGroup repository))).
  { rewrite onDidRunOperation_decorations, !collectDecorationData_get, lastDecoration_app.
    destruct (lastDecoration _ (resourceStates (workingTreeGroup repository))); [done|].
    by destruct (lastDecoration _ (resourceStates (indexGroup repository))). }
  destruct (lastDecoration (Uri_toString uri) _) as [d'|] eqn:Hlast.
  - split.
    + apply lastDecoration_Some in Hlast as (r' & ? & ? & ?). by exists r', d'.
    + eexists. split; [apply onDidRunOperation_fired|].
      apply list_elem_of_fmap. exists (Uri_toString uri). split; [done|].
      apply changedKeys_elem. left. split; [|done].
      apply Map_has_true. unfold Map_has. by rewrite Hget.
  - rewrite lastDecoration_None in Hlast. rewrite (Hlast r Hr Hkey) in Hd. done.
Qed.

(** X6: a provider disposes of the handles of the two registrations of its
    constructor, each once and in the order of registration, and keeps its
    map: the registration of the provider with the host and the subscription
    to the operations of its repository. *)
Theorem GitDecorationProvider_new_dispose repository (h : Host) :
  let '(this, h1) := GitDecorationProvider_new repository h in
  let '(this', h2) := GitDecorationProvider_dispose this h1 in
  registrations h2 = registrations h ++
    [RegisterDecorationProvider (root repository); OnDidRunOperation (repoId repository)] ∧
  disposed h2 = disposed h ++
    [length (registrations h); S (length (registrations h))] ∧
  this' = this.
Proof.
  cbn. split_and!; [| |done].
  - by rewrite <- app_assoc.
  - rewrite length_app, Nat.add_1_r, <- app_assoc. done.
Qed.
End GitDecorationProviderMore.

(** ** GitIgnoreDecorationProvider *)

Lemma Map_set_set {K V : Type} `{EqDecision K} (k : K) (v v' : V) (m : JsMap K V) :
  Map_set k v' (Map_set k v m) = Map_set k v' m.
Proof.
  induction m as [|[k0 v0] m IH]; cbn.
  - by rewrite decide_True.
  - destruct (decide (k = k0)) as [->|Hne]; cbn.
    + by rewrite decide_True.
    + by rewrite decide_False, IH.
Qed.

Lemma Map_set_fresh {K V : Type} `{EqDecision K} (k : K) (v : V) (m : JsMap K V) :
  k ∉ Map_keys m → Map_set k v m = m ++ [(k, v)].
Proof.
  unfold Map_keys. induction m as [|[k0 v0] m IH]; csimpl; [done|].
  rewrite not_elem_of_cons. intros [Hne Hnin].
  by rewrite decide_False, IH.
Qed.

Section GitIgnoreDecorationProviderMore.
Context {Uri Err : Type} `{UriApi Uri}.
Implicit Types (w : World Err) (op : Op Uri Err) (ops : list (Op Uri Err)).
Implicit Types (repository : Repository Uri) (h : Host).

Lemma settle_count_fresh w id :
  World_inv w → id ∉ (w_settled w).*1 → settle_count id w = 0.
Proof.
  intros _ Hnin. unfold settle_count. rewrite filter_none_elem; [done|].
  intros [id' st] Hin Heq. cbn in Heq. subst id'.
  apply Hnin, list_elem_of_fmap. by exists (id, st).
Qed.

(** X7: when the lookup of the batch of a query fails, the promise that
    [provideDecoration] returned is rejected with the error of the lookup. *)
Theorem provideDecoration_rejected_on_failure repository h ops (uri : Uri) (err : Err) :
  let w := run ops (World_init repository h) in
  let '(id, w1) := GitIgnoreDecorationProvider_provideDecoration uri w in
  let w2 := elapse 500 w1 in
  let w3 := checkIgnore_completes (length (w_calls w)) (inr err) w2 in
  provideDecoration_result id w3 = Some (inr err).
Proof.
  intros w.
  unfold GitIgnoreDecorationProvider_provideDecoration, provideDecoration_executor.
  lazy beta iota zeta.
  match goal with |- context [elapse 500 ?x] => set (w1 := x) end.
  set (w2 := elapse 500 w1). set (w3 := checkIgnore_completes _ _ w2).
  assert (Hinv : World_inv w2).
  { replace w2 with (run (ops ++ [Query uri; Elapse 500]) (World_init repository h)).
    - apply reachable_inv.
    - rewrite run_app. reflexivity. }
  destruct (elapse_due w1 500 (w_now w + 500) eq_refl) as [_ Hcalls]; [done|].
  fold w2 in Hcalls.
  assert (Hc : w_calls w2 !! length (w_calls w) = Some
    {| ci_paths := Map_keys (gi_checkIgnoreQueue (w_provider w1));
       ci_queue := gi_checkIgnoreQueue (w_provider w1); ci_completed := false |}).
  { rewrite Hcalls. by apply list_lookup_middle. }
  destruct (checkIgnore_completes_filter w2 (length (w_calls w)) _ (inr err)
              (Uri_fsPath uri) (w_promises w) Hinv Hc eq_refl) as [_ Hafter].
  { apply Map_set_elem. }
  unfold provideDecoration_result. fold w3 in Hafter. by rewrite Hafter.
Qed.

(** X8: a second query for a path that is still queued takes the place of
    the first: the queue holds the promise of the second query under the path,
    and the settling functions of the promise of the first query are never
    called, whatever happens next. *)
Theorem provideDecoration_overwrites_queued repository h ops0 (uri1 uri2 : Uri) ops :
  Uri_fsPath uri1 = Uri_fsPath uri2 →
  let w := run ops0 (World_init repository h) in
  let w2 := step (step w (Query uri1)) (Query uri2) in
  Map_get (Uri_fsPath uri1) (gi_checkIgnoreQueue (w_provider w2)) = Some (S (w_promises w)) ∧
  Map_keys (gi_checkIgnoreQueue (w_provider w2)) =
    Map_keys (gi_checkIgnoreQueue (w_provider (step w (Query uri1)))) ∧
  settle_count (w_promises w) (run ops w2) = 0.
Proof.
  intros Hpath w w2.
  pose proof (reachable_inv (Err:=Err) repository h ops0) as Hinv. fold w in Hinv.
  assert (Hq : gi_checkIgnoreQueue (w_provider w2) =
               Map_set (Uri_fsPath uri1) (S (w_promises w))
                 (gi_checkIgnoreQueue (w_provider w))).
  { unfold w2. destruct (query_state (step w (Query uri1)) uri2) as (_ & _ & _ & ->).
    destruct (query_state w uri1) as (_ & _ & _ & ->).
    rewrite <- Hpath. apply Map_set_set. }
  split_and!.
  - by rewrite Hq, Map_get_set, decide_True.
  - rewrite Hq. destruct (query_state w uri1) as (_ & _ & _ & ->).
    by rewrite !Map_keys_set.
  - assert (Hfresh : w_promises w ∉ World_ids w).
    { intros Hin%(inv_created w Hinv). lia. }
    rewrite settle_count_stable.
    + apply settle_count_fresh.
      * apply (step_inv (step w (Query uri1)) (Query uri2)), step_inv, Hinv.
      * intros Hin. apply Hfresh. unfold World_ids. apply elem_of_app. by left.
    + unfold w2. rewrite !step_promises. lia.
    + unfold liveIds. rewrite Hq. intros Hin.
      eapply elem_of_submseteq in Hin;
        [|apply submseteq_skips_r, Map_set_values_submseteq].
      apply elem_of_cons in Hin as [Heq|Hin]; [lia|].
      apply Hfresh. unfold World_ids. apply elem_of_app. by right.
Qed.

(** X9: [dispose] abandons every queued query: the settling functions of a
    promise that is in the queue when the provider is disposed of are never
    called, whatever happens next. *)
Theorem dispose_abandons_queued w (key : string) (id : PromiseId) ops :
  World_reachable (Uri:=Uri) w →
  (key, id) ∈ gi_checkIgnoreQueue (w_provider w) →
  settle_count id (run ops (World_dispose w)) = 0.
Proof.
  intros (repository & h & ops0 & ->) Hin.
  pose proof (reachable_inv (Err:=Err) repository h ops0) as Hinv.
  set (w := run ops0 (World_init repository h)) in *.
  assert (Hid : id ∈ (gi_checkIgnoreQueue (w_provider w)).*2).
  { apply list_elem_of_fmap. by exists (key, id). }
  destruct Hinv as [Hnd Hcreated].
  assert (Hlt : id < w_promises w).
  { apply Hcreated. unfold World_ids. rewrite !elem_of_app. auto. }
  unfold World_ids in Hnd. apply NoDup_app in Hnd as (_ & Hdisj1 & Hnd).
  apply NoDup_app in Hnd as (_ & Hdisj2 & _).
  rewrite settle_count_stable.
  - unfold settle_count. change (w_settled (World_dispose w)) with (w_settled w).
    rewrite filter_none_elem; [done|].
    intros [id' st] Hin' Heq. cbn in Heq. subst id'.
    apply (Hdisj1 id).
    + apply list_elem_of_fmap. by exists (id, st).
    + apply elem_of_app. by left.
  - done.
  - unfold liveIds. cbn. by apply Hdisj2.
Qed.

(** X10: [dispose] does not reach the batches in flight: a promise held by a
    call in flight is still settled, once, when that call completes after the
    provider was disposed of. *)
Theorem dispose_keeps_calls_in_flight w (i : nat)
    (c : CheckIgnoreCall) (key : string) (id : PromiseId) (r : gset string + Err) :
  World_reachable (Uri:=Uri) w →
  w_calls w !! i = Some c → ci_completed c = false → (key, id) ∈ ci_queue c →
  filter (λ e, e.1 = id) (w_settled (checkIgnore_completes i r (World_dispose w))) =
    [(id, match r with
          | inl ignoreSet => Resolve (bool_decide (key ∈ ignoreSet))
          | inr err => Reject err
          end)].
Proof.
  intros (repository & h & ops0 & ->) Hc Hpending Hin.
  set (w := run ops0 (World_init repository h)) in *.
  assert (Hinv : World_inv (World_dispose w)).
  { apply (step_inv w Dispose), reachable_inv. }
  by destruct (checkIgnore_completes_filter (World_dispose w) i c r key id Hinv Hc
                 Hpending Hin).
Qed.

Lemma step_paths_inv w op : World_paths_inv w → World_paths_inv (step w op).
Proof.
  intros [Hwf Hcalls]. destruct op as [uri|dt|i r|].
  - split; [by apply Map_wf_set | done].
  - unfold World_paths_inv, step, elapse. cbn.
    destruct (gi_timer (w_provider w)); [|done].
    destruct (decide _); [|done]. cbn. split; [apply NoDup_nil_2|].
    apply Forall_app. split; [done|]. apply Forall_singleton. by split.
  - unfold World_paths_inv, step, checkIgnore_completes.
    destruct (w_calls w !! i) as [c|] eqn:Hc; [|done].
    destruct (ci_completed c); [done|]. cbn. split; [done|].
    apply Forall_insert; [done|]. cbn.
    by apply (Forall_lookup_1 _ _ _ _ Hcalls Hc).
  - split; [apply NoDup_nil_2 | done].
Qed.

(** X11: in every world a provider can reach the queue has one entry per
    path, and every [checkIgnore] call was given the paths of the entries it
    captured, each path once. *)
Theorem reachable_paths_inv repository h ops :
  World_paths_inv (run ops (World_init (Err:=Err) repository h)).
Proof.
  induction ops as [|op ops IH] using rev_ind.
  - split; [apply NoDup_nil_2 | apply Forall_nil_2].
  - rewrite run_snoc. by apply step_paths_inv.
Qed.

Lemma imap_paths (g : nat → PromiseId) (uris : list Uri) :
  (imap (λ n uri, (Uri_fsPath uri, g n)) uris).*1 = Uri_fsPath <$> uris.
Proof.
  revert g. induction uris as [|uri uris IH]; intros g; [done|].
  cbn. f_equal. apply (IH (g ∘ S)).
Qed.

Lemma run_queries w (uris : list Uri) :
  NoDup (Map_keys (gi_checkIgnoreQueue (w_provider w)) ++ (Uri_fsPath <$> uris)) →
  let w1 := run (Query <$> uris) w in
  gi_checkIgnoreQueue (w_provider w1) =
    gi_checkIgnoreQueue (w_provider w) ++
    imap (λ n uri, (Uri_fsPath uri, w_promises w + n)) uris ∧
  w_promises w1 = w_promises w + length uris ∧
  w_calls w1 = w_calls w ∧
  w_settled w1 = w_settled w.
Proof.
  induction uris as [|uri uris IH] using rev_ind; intros Hnd w1.
  - cbn. by rewrite app_nil_r, Nat.add_0_r.
  - rewrite fmap_app, app_assoc in Hnd. cbn in Hnd.
    destruct IH as (Hq & Hp & Hc & Hs); [by apply NoDup_app in Hnd as (? & _ & _)|].
    unfold w1. rewrite fmap_app, run_app. set (w0 := run (Query <$> uris) w) in *.
    change (run (Query <$> [uri]) w0) with (step w0 (Query uri)).
    destruct (query_state w0 uri) as (_ & -> & -> & ->).
    rewrite step_promises, Hp, Hc, Hs, length_app. cbn.
    split_and!; [|lia|done..].
    rewrite Map_set_fresh.
    + rewrite Hq, imap_app, <- app_assoc. cbn. by rewrite Nat.add_0_r.
    + rewrite Hq. unfold Map_keys. rewrite fmap_app, imap_paths.
      apply NoDup_app in Hnd as (_ & Hdisj & _). intros Hin. apply (Hdisj _ Hin). left.
Qed.

(** X12: queries for pairwise distinct paths, made while the queue is empty,
    are dispatched as one call whose argument lists the paths in the order of
    the queries; the call holds the promises of the queries in that order. *)
Theorem distinct_queries_dispatched_in_order w (uris : list Uri) :
  gi_checkIgnoreQueue (w_provider w) = [] →
  NoDup (Uri_fsPath <$> uris) →
  w_calls (checkIgnoreSoon_body (run (Query <$> uris) w)) =
    w_calls w ++
    [{| ci_paths := Uri_fsPath <$> uris;
        ci_queue := imap (λ n uri, (Uri_fsPath uri, w_promises w + n)) uris;
        ci_completed := false |}].
Proof.
  intros Hempty Hnd.
  destruct (run_queries w uris) as (Hq & _ & Hc & _); [by rewrite Hempty|].
  rewrite Hempty, app_nil_l in Hq.
  unfold checkIgnoreSoon_body. cbn. rewrite Hc, Hq. unfold Map_copy. do 3 f_equal.
  apply imap_paths.
Qed.

(** X13: a dispatch with an empty queue, as happens when the timeout fires
    after [dispose], still makes a [checkIgnore] call, with no path, and its
    completion calls no settling function. *)
Theorem empty_dispatch w (r : gset string + Err) :
  gi_checkIgnoreQueue (w_provider w) = [] →
  let w' := checkIgnoreSoon_body w in
  w_calls w' !! length (w_calls w) =
    Some {| ci_paths := []; ci_queue := []; ci_completed := false |} ∧
  w_settled (checkIgnore_completes (length (w_calls w)) r w') = w_settled w.
Proof.
  intros Hempty w'.
  assert (Hc : w_calls w' !! length (w_calls w) =
               Some {| ci_paths := []; ci_queue := []; ci_completed := false |}).
  { unfold w', checkIgnoreSoon_body. cbn. rewrite Hempty. by apply list_lookup_middle. }
  split; [done|].
  rewrite (checkIgnore_completes_settled _ r w' _ Hc eq_refl). cbn.
  by rewrite app_nil_r.
Qed.
End GitIgnoreDecorationProviderMore.

(** ** GitDecorations *)

Lemma Map_delete_fresh {K V : Type} `{EqDecision K} (k : K) (m : JsMap K V) :
  k ∉ Map_keys m → Map_delete k m = m.
Proof.
  intros Hnin. rewrite Map_delete_filter. apply filter_all_elem.
  intros [k0 v0] Hin Heq. cbn in Heq. subst k0.
  apply Hnin, list_elem_of_fmap. by exists (k, v0).
Qed.

Lemma Map_delete_set_fresh {K V : Type} `{EqDecision K} (k : K) (v : V) (m : JsMap K V) :
  k ∉ Map_keys m → Map_delete k (Map_set k v m) = m.
Proof.
  intros Hnin. rewrite Map_set_fresh, Map_delete_filter, filter_app by done.
  rewrite <- Map_delete_filter, Map_delete_fresh by done.
  rewrite filter_cons, decide_False by (intros Hk; by apply Hk).
  by rewrite filter_nil, app_nil_r.
Qed.

Lemma Map_get_delete {K V : Type} `{EqDecision K} (k : K) (m : JsMap K V) :
  Map_get k (Map_delete k m) = None.
Proof. apply Map_get_None. rewrite Map_keys_delete_elem. by intros [? _]. Qed.

Lemma Map_wf_delete {K V : Type} `{EqDecision K} (k : K) (m : JsMap K V) :
  Map_wf m → Map_wf (Map_delete k m).
Proof.
  unfold Map_wf. intros Hwf. rewrite Map_delete_filter.
  eapply sublist_NoDup; [exact Hwf|]. unfold Map_keys.
  apply fmap_sublist, sublist_filter.
Qed.

Section GitDecorationsMore.
Context {Uri : Type} `{UriApi Uri}.
Implicit Types (this : GitDecorations Uri) (h : Host) (s : GitDecorations Uri * Host).
Implicit Types (repository : Repository Uri) (repositories : list (Repository Uri)).

Lemma onDidOpenRepository_eq repository this h :
  onDidOpenRepository repository (this, h) =
  ({| g_disposables := g_disposables this;
      g_providers := Map_set (repoId repository)
                       (newPair repository (length (registrations h)))
                       (g_providers this) |},
   {| registrations := registrations h ++ providerRegistrations repository;
      disposed := disposed h |}).
Proof.
  cbn. unfold newPair, providerRegistrations.
  rewrite !length_app, <- !app_assoc. cbn. by rewrite !Nat.add_1_r.
Qed.

Lemma onDidCloseRepository_tracked repository this h (pair : ProviderPair Uri) :
  Map_get (repoId repository) (g_providers this) = Some pair →
  onDidCloseRepository repository (this, h) =
  ({| g_disposables := g_disposables this;
      g_providers := Map_delete (repoId repository) (g_providers this) |},
   {| registrations := registrations h;
      disposed := disposed h ++ ProviderPair_handles pair |}).
Proof.
  intros Hget. unfold onDidCloseRepository. rewrite Hget.
  pose proof (ProviderPair_dispose_disposed pair h) as Hd.
  assert (Hr : registrations (ProviderPair_dispose pair h).2 = registrations h).
  { unfold ProviderPair_dispose, GitDecorationProvider_dispose,
      GitIgnoreDecorationProvider_dispose. cbn. by rewrite !disposeAll_registrations. }
  destruct (ProviderPair_dispose pair h) as [pair' [regs disp]]. cbn in *. by subst.
Qed.

(** X14: closing a repository that the registry does not track changes
    nothing, neither the registry nor the host. *)
Theorem onDidCloseRepository_untracked repository this h :
  repoId repository ∉ Map_keys (g_providers this) →
  onDidCloseRepository repository (this, h) = (this, h).
Proof.
  intros Hnin%Map_get_None. unfold onDidCloseRepository. by rewrite Hnin.
Qed.

(** X15: opening a repository that is not tracked and closing it again puts
    the registry back as it was; on the way the host has received the three
    registrations of the two providers and one [dispose] call on the handle of
    each. *)
Theorem open_close_round_trip repository this h :
  repoId repository ∉ Map_keys (g_providers this) →
  let s := onDidCloseRepository repository (onDidOpenRepository repository (this, h)) in
  s.1 = this ∧
  registrations s.2 = registrations h ++ providerRegistrations repository ∧
  disposed s.2 = disposed h ++
    [length (registrations h); S (length (registrations h));
     S (S (length (registrations h)))].
Proof.
  intros Hnin s. unfold s. rewrite onDidOpenRepository_eq.
  rewrite (onDidCloseRepository_tracked _ _ _ (newPair repository (length (registrations h))))
    by (cbn; by rewrite Map_get_set, decide_True).
  cbn. split_and!; [|done..].
  rewrite Map_delete_set_fresh by done. by destruct this.
Qed.

(** X16: closing a repository twice is closing it once. *)
Theorem onDidCloseRepository_idempotent repository s :
  onDidCloseRepository repository (onDidCloseRepository repository s) =
  onDidCloseRepository repository s.
Proof.
  destruct s as [this h].
  destruct (Map_get (repoId repository) (g_providers this)) as [pair|] eqn:Hget.
  - rewrite (onDidCloseRepository_tracked _ _ _ pair Hget).
    apply onDidCloseRepository_untracked. cbn.
    apply Map_get_None, Map_get_delete.
  - assert (Hsame : onDidCloseRepository repository (this, h) = (this, h)).
    { unfold onDidCloseRepository. by rewrite Hget. }
    by rewrite !Hsame.
Qed.

(** X17: opening a repository that is already tracked puts a new pair in the
    place of the tracked one without disposing of it: the tracked keys stay
    as they are, no [dispose] call is made, and closing the repository
    afterwards disposes of the handles of the new pair only. *)
Theorem onDidOpenRepository_again repository this h (pair : ProviderPair Uri) :
  Map_get (repoId repository) (g_providers this) = Some pair →
  let s1 := onDidOpenRepository repository (this, h) in
  let s2 := onDidCloseRepository repository s1 in
  Map_keys (g_providers s1.1) = Map_keys (g_providers this) ∧
  Map_get (repoId repository) (g_providers s1.1) =
    Some (newPair repository (length (registrations h))) ∧
  disposed s1.2 = disposed h ∧
  disposed s2.2 = disposed h ++
    [length (registrations h); S (length (registrations h));
     S (S (length (registrations h)))].
Proof.
  intros Hget s1 s2. unfold s2, s1. rewrite onDidOpenRepository_eq.
  rewrite (onDidCloseRepository_tracked _ _ _ (newPair repository (length (registrations h))))
    by (cbn; by rewrite Map_get_set, decide_True).
  cbn [fst snd g_providers disposed]. split_and!; [| |done..].
  - rewrite Map_keys_set. unfold Map_has. by rewrite Hget.
  - by rewrite Map_get_set, decide_True.
Qed.

Lemma trackedHandles_set repository (n : nat) this :
  (Map_set (repoId repository) (newPair repository n) (g_providers this)
     ≫= λ kv, ProviderPair_handles kv.2) ⊆+
  [n; S n; S (S n)] ++ trackedHandles this.
Proof.
  unfold trackedHandles. induction (g_providers this) as [|[k0 v0] m IH].
  - cbn. done.
  - cbn [Map_set]. destruct (decide (repoId repository = k0)).
    + rewrite !bind_cons. cbn [snd].
      change (ProviderPair_handles (newPair repository n)) with [n; S n; S (S n)].
      apply submseteq_skips_l, submseteq_inserts_l. done.
    + rewrite !bind_cons. cbn [snd].
      etrans; [apply submseteq_skips_l, IH|].
      apply Permutation_submseteq. solve_Permutation.
Qed.

Lemma trackedHandles_delete (k : RepoId) (m : JsMap RepoId (ProviderPair Uri))
    (pair : ProviderPair Uri) :
  Map_get k m = Some pair →
  (Map_delete k m ≫= λ kv, ProviderPair_handles kv.2) ++ ProviderPair_handles pair ⊆+
  m ≫= λ kv, ProviderPair_handles kv.2.
Proof.
  induction m as [|[k0 v0] m IH]; cbn [Map_delete Map_get]; [done|].
  destruct (decide (k = k0)) as [->|Hne].
  - intros [= ->]. rewrite bind_cons. cbn [snd].
    etrans; [|apply Permutation_submseteq, Permutation_app_comm].
    apply submseteq_skips_r, sublist_submseteq, bind_sublist.
    rewrite Map_delete_filter. apply sublist_filter.
  - intros Hget. rewrite !bind_cons, <- app_assoc.
    by apply submseteq_skips_l, IH.
Qed.

Lemma GitDecorations_handle_inv (h0 : Host) s (e : ModelEvent Uri) :
  GitDecorations_inv h0 s → GitDecorations_inv h0 (GitDecorations_handle s e).
Proof.
  destruct s as [this h]. intros (Hwf & Hlen & released & Hdisp & Hnd & Hlt). cbn in *.
  destruct e as [repository|repository]; cbn [GitDecorations_handle].
  - rewrite onDidOpenRepository_eq. set (n := length (registrations h)) in *.
    assert (Hsub : g_disposables this ++
        (Map_set (repoId repository) (newPair repository n) (g_providers this)
           ≫= λ kv, ProviderPair_handles kv.2) ++ released ⊆+
        [n; S n; S (S n)] ++ g_disposables this ++ trackedHandles this ++ released).
    { etrans; [apply submseteq_skips_l, submseteq_skips_r, trackedHandles_set|].
      apply Permutation_submseteq. solve_Permutation. }
    split; [by apply Map_wf_set|]. cbn. rewrite length_app. cbn.
    split; [lia|]. exists released. split_and!; [done| |].
    + eapply submseteq_NoDup; [exact Hsub|]. apply NoDup_app. split_and!; [| |done].
      * repeat (apply NoDup_cons; split;
                [rewrite ?elem_of_cons, ?elem_of_nil; lia|]). apply NoDup_nil_2.
      * intros d Hd Hd'%Hlt. rewrite !elem_of_cons, elem_of_nil in Hd. lia.
    + intros d Hd. eapply elem_of_submseteq in Hd; [|exact Hsub].
      apply elem_of_app in Hd as [Hd|Hd%Hlt]; [|lia].
      rewrite !elem_of_cons, elem_of_nil in Hd. lia.
  - destruct (Map_get (repoId repository) (g_providers this)) as [pair|] eqn:Hget.
    + rewrite (onDidCloseRepository_tracked _ _ _ pair Hget).
      assert (Hsub : g_disposables this ++
          (Map_delete (repoId repository) (g_providers this)
             ≫= λ kv, ProviderPair_handles kv.2) ++ released ++ ProviderPair_handles pair ⊆+
          g_disposables this ++ trackedHandles this ++ released).
      { apply submseteq_skips_l.
        etrans; [|apply submseteq_skips_r, (trackedHandles_delete _ _ _ Hget)].
        apply Permutation_submseteq. solve_Permutation. }
      split; [by apply Map_wf_delete|]. split; [done|].
      exists (released ++ ProviderPair_handles pair).
      cbn. split_and!.
      * by rewrite Hdisp, app_assoc.
      * by eapply submseteq_NoDup.
      * intros d Hd. apply Hlt. by eapply elem_of_submseteq.
    + unfold onDidCloseRepository. rewrite Hget.
      split; [done|]. split; [done|]. by exists released.
Qed.

Lemma openAll_run repositories s :
  fold_left (λ s repository, onDidOpenRepository repository s) repositories s =
  GitDecorations_run (DidOpenRepository <$> repositories) s.
Proof.
  revert s. induction repositories as [|r rs IH]; intros s; [done|]. cbn. apply IH.
Qed.

Lemma GitDecorations_new_run repositories h :
  GitDecorations_new repositories h =
  GitDecorations_run (DidOpenRepository <$> repositories)
    ({| g_disposables := [length (registrations h); S (length (registrations h))];
        g_providers := [] |},
     {| registrations := registrations h ++ [OnDidOpenRepository; OnDidCloseRepository];
        disposed := disposed h |}).
Proof.
  unfold GitDecorations_new. cbn. rewrite openAll_run.
  by rewrite length_app, Nat.add_1_r, <- app_assoc.
Qed.

Lemma GitDecorations_run_snoc (events : list (ModelEvent Uri)) (e : ModelEvent Uri) s :
  GitDecorations_run (events ++ [e]) s = GitDecorations_handle (GitDecorations_run events s) e.
Proof. unfold GitDecorations_run. by rewrite fold_left_app. Qed.

Lemma Map_get_delete_ne {V : Type} (k k' : RepoId) (m : JsMap RepoId V) :
  k ≠ k' → Map_get k' (Map_delete k m) = Map_get k' m.
Proof.
  intros Hne. induction m as [|[k0 v0] m IH]; cbn; [done|].
  destruct (decide (k = k0)) as [->|]; cbn.
  - by rewrite decide_False by done.
  - by rewrite IH.
Qed.

(** X22: opening or closing a repository leaves the pairs tracked for the
    other repositories as they are. *)
Theorem GitDecorations_handle_frame s (e : ModelEvent Uri) (k : RepoId) :
  k ≠ repoId (match e with
              | DidOpenRepository repository | DidCloseRepository repository => repository
              end) →
  Map_get k (g_providers (GitDecorations_handle s e).1) = Map_get k (g_providers s.1).
Proof.
  destruct s as [this h]. destruct e as [repository|repository]; intros Hne;
    cbn [GitDecorations_handle].
  - rewrite onDidOpenRepository_eq. cbn [fst g_providers].
    by rewrite Map_get_set, decide_False.
  - destruct (Map_get (repoId repository) (g_providers this)) as [pair|] eqn:Hget.
    + rewrite (onDidCloseRepository_tracked _ _ _ pair Hget). cbn [fst g_providers].
      by apply Map_get_delete_ne.
    + unfold onDidCloseRepository. by rewrite Hget.
Qed.

Lemma GitDecorations_run_reaches_inv repositories h (events : list (ModelEvent Uri)) :
  GitDecorations_inv h (GitDecorations_run events (GitDecorations_new repositories h)).
Proof.
  rewrite GitDecorations_new_run. unfold GitDecorations_run. rewrite <- fold_left_app.
  induction (_ ++ events) as [|e es IH] using rev_ind.
  - split; [apply NoDup_nil_2|]. cbn. rewrite length_app. cbn. split; [lia|].
    exists []. cbn. split_and!.
    + by rewrite app_nil_r.
    + repeat (apply NoDup_cons; split;
              [rewrite ?elem_of_cons, ?elem_of_nil; lia|]). apply NoDup_nil_2.
    + intros d Hd. rewrite !elem_of_cons, elem_of_nil in Hd. lia.
  - rewrite fold_left_app. by apply GitDecorations_handle_inv.
Qed.

(** X18: on a host where [dispose] was only called on handles it had handed
    out, whatever repositories are opened and closed after construction, the
    registry tracks one pair per repository; the handles it holds (its two
    subscriptions and those of the tracked pairs) are distinct, were handed
    out since the construction began, and [dispose] has been called on none
    of them; the [dispose] calls made since the construction are on distinct
    handles, on none of which [dispose] had been called before. *)
Theorem GitDecorations_run_inv repositories h (events : list (ModelEvent Uri)) :
  Host_wf h →
  let s := GitDecorations_run events (GitDecorations_new repositories h) in
  Map_wf (g_providers s.1) ∧
  NoDup (g_disposables s.1 ++ trackedHandles s.1) ∧
  (∀ d, d ∈ g_disposables s.1 ++ trackedHandles s.1 →
        length (registrations h) ≤ d < length (registrations s.2) ∧
        d ∉ disposed s.2) ∧
  ∃ released,
    disposed s.2 = disposed h ++ released ∧
    NoDup released ∧
    ∀ d, d ∈ released → (d ∉ disposed h) ∧ d < length (registrations s.2).
Proof.
  intros Hhost s.
  destruct (GitDecorations_run_reaches_inv repositories h events)
    as (Hwf & Hlen & released & Hdisp & Hnd & Hbound).
  fold s in Hwf, Hlen, Hdisp, Hnd, Hbound.
  rewrite app_assoc in Hnd. apply NoDup_app in Hnd as (Hheld & Hdisj & Hreleased).
  split_and!; [done..| |].
  - intros d Hd. split.
    + apply Hbound. rewrite app_assoc. apply elem_of_app. by left.
    + rewrite Hdisp. intros [Hold|Hnew]%elem_of_app.
      * apply Hhost in Hold.
        assert (length (registrations h) ≤ d); [|lia].
        apply Hbound. rewrite app_assoc. apply elem_of_app. by left.
      * by apply (Hdisj d).
  - exists released. split_and!; [done..|]. intros d Hd.
    assert (Hb : length (registrations h) ≤ d < length (registrations s.2)).
    { apply Hbound. rewrite app_assoc. apply elem_of_app. by right. }
    split; [|lia]. intros Hold%Hhost. lia.
Qed.

(** X19: [dispose] of the registry calls [dispose] on its own disposables,
    in their order, and on nothing else, makes no registration and empties the
    map of tracked pairs. *)
Theorem GitDecorations_dispose_effect this h :
  g_providers (GitDecorations_dispose (this, h)).1 = [] ∧
  g_disposables (GitDecorations_dispose (this, h)).1 = g_disposables this ∧
  disposed (GitDecorations_dispose (this, h)).2 = disposed h ++ g_disposables this ∧
  registrations (GitDecorations_dispose (this, h)).2 = registrations h.
Proof.
  rewrite GitDecorations_dispose_host, disposeAll_disposed, disposeAll_registrations.
  done.
Qed.

Lemma openAll_registrations repositories s :
  let s' := GitDecorations_run (DidOpenRepository <$> repositories) s in
  registrations s'.2 = registrations s.2 ++ (repositories ≫= providerRegistrations) ∧
  disposed s'.2 = disposed s.2.
Proof.
  induction repositories as [|r rs IH] using rev_ind; intros s'.
  - cbn. by rewrite app_nil_r.
  - destruct IH as [Hregs Hdisp]. unfold s'.
    rewrite fmap_app. cbn [fmap list_fmap]. rewrite GitDecorations_run_snoc.
    destruct (GitDecorations_run (DidOpenRepository <$> rs) s) as [this h].
    cbn [GitDecorations_handle]. rewrite onDidOpenRepository_eq. cbn in *.
    by rewrite Hregs, Hdisp, bind_app, bind_singleton, app_assoc.
Qed.

(** X20: the constructor subscribes to the two events of the model and then,
    for each open repository in turn, makes the three registrations of its
    providers; it makes no [dispose] call. *)
Theorem GitDecorations_new_registrations repositories h :
  registrations (GitDecorations_new repositories h).2 =
    registrations h ++ [OnDidOpenRepository; OnDidCloseRepository] ++
    (repositories ≫= providerRegistrations) ∧
  disposed (GitDecorations_new repositories h).2 = disposed h.
Proof.
  rewrite GitDecorations_new_run.
  destruct (openAll_registrations repositories
    ({| g_disposables := [length (registrations h); S (length (registrations h))];
        g_providers := [] |},
     {| registrations := registrations h ++ [OnDidOpenRepository; OnDidCloseRepository];
        disposed := disposed h |})) as [-> ->].
  cbn. by rewrite <- app_assoc.
Qed.
End GitDecorationsMore.

(** ** The further properties at concrete inputs *)

Ltac by_computation := apply (bool_decide_unpack _); vm_compute; exact I.

Lemma onDidRunOperation_undecorated_witness :
  gd_decorations (onDidRunOperation cleanRepository
    (exampleProvider [("file:///repo/x", D1); ("file:///repo/y", D2)])) = [] ∧
  gd_fired (onDidRunOperation cleanRepository
    (exampleProvider [("file:///repo/x", D1); ("file:///repo/y", D2)])) =
    [[file "/repo/x"; file "/repo/y"]].
Proof.
  destruct (onDidRunOperation_undecorated cleanRepository
              (exampleProvider [("file:///repo/x", D1); ("file:///repo/y", D2)]))
    as [Hmap Hfired].
  { intros r Hr. cbn in Hr. apply list_elem_of_singleton in Hr. by subst r. }
  split; [exact Hmap|]. rewrite Hfired. vm_compute. reflexivity.
Defined.

Lemma onDidRunOperation_drops_stale_witness :
  (GitDecorationProvider_provideDecoration (file "/repo/x")
     (onDidRunOperation exampleRepository
        (exampleProvider [("file:///repo/x", D1); ("file:///repo/y", D2)]))).1 = None ∧
  ∃ uris,
    gd_fired (onDidRunOperation exampleRepository
      (exampleProvider [("file:///repo/x", D1); ("file:///repo/y", D2)])) = [uris] ∧
    file "/repo/x" ∈ uris.
Proof.
  destruct (onDidRunOperation_drops_stale exampleRepository
              (exampleProvider [("file:///repo/x", D1); ("file:///repo/y", D2)])
              (file "/repo/x")) as (Hnone & uris & Hfired & Hin).
  - left.
  - intros r Hr Hkey. cbn in Hr.
    repeat (apply elem_of_cons in Hr as [->|Hr]); try discriminate Hkey; try done.
    by apply elem_of_nil in Hr.
  - split; [exact Hnone|]. exists uris. split; [exact Hfired | exact Hin].
Defined.

Lemma provideDecoration_overwrites_queued_witness :
  Uri_fsPath (file "/repo/a") = Uri_fsPath (file "/repo/a") ∧
  settle_count 0
    (run [Elapse 500; Completes 0 (inl {["/repo/a"]})]
       (step (step (World_init (Err:=string) exampleRepository emptyHost)
                (Query (file "/repo/a"))) (Query (file "/repo/a")))) = 0.
Proof.
  split; [reflexivity|].
  apply (provideDecoration_overwrites_queued (Err:=string) exampleRepository emptyHost []
           (file "/repo/a") (file "/repo/a")
           [Elapse 500; Completes 0 (inl {["/repo/a"]})] eq_refl).
Defined.

Lemma dispose_abandons_queued_witness :
  World_reachable (Uri:=FileUri) queuedWorld ∧
  ("/repo/b", 1) ∈ gi_checkIgnoreQueue (w_provider queuedWorld) ∧
  settle_count 1
    (run [Elapse 500; Completes 0 (inl {["/repo/b"]})] (World_dispose queuedWorld)) = 0.
Proof.
  assert (Hr : World_reachable (Uri:=FileUri) queuedWorld).
  { eexists _, _, _. reflexivity. }
  assert (Hin : ("/repo/b", 1) ∈ gi_checkIgnoreQueue (w_provider queuedWorld)).
  { right. left. }
  split_and!; [exact Hr | exact Hin |].
  apply (dispose_abandons_queued (Uri:=FileUri) queuedWorld "/repo/b" 1
           [Elapse 500; Completes 0 (inl {["/repo/b"]})] Hr Hin).
Defined.

Lemma dispose_keeps_calls_in_flight_witness :
  World_reachable (Uri:=FileUri) batchWorld ∧
  w_calls batchWorld !! 0 = Some batchCall ∧
  ci_completed batchCall = false ∧
  ("/repo/b", 1) ∈ ci_queue batchCall ∧
  filter (λ e, e.1 = 1)
    (w_settled (checkIgnore_completes 0 (inr "git failed") (World_dispose batchWorld))) =
    [(1, Reject "git failed")].
Proof.
  assert (Hr : World_reachable (Uri:=FileUri) batchWorld).
  { eexists _, _, _. reflexivity. }
  assert (Hc : w_calls batchWorld !! 0 = Some batchCall).
  { vm_compute. reflexivity. }
  assert (Hin : ("/repo/b", 1) ∈ ci_queue batchCall).
  { right. left. }
  split_and!; [exact Hr | exact Hc | reflexivity | exact Hin |].
  apply (dispose_keeps_calls_in_flight (Uri:=FileUri) batchWorld 0 batchCall "/repo/b" 1
           (inr "git failed") Hr Hc eq_refl Hin).
Defined.

Lemma distinct_queries_dispatched_in_order_witness :
  NoDup (Uri_fsPath <$> [file "/repo/a"; file "/repo/b"]) ∧
  w_calls (checkIgnoreSoon_body
             (run (Query <$> [file "/repo/a"; file "/repo/b"])
                (World_init (Err:=string) exampleRepository emptyHost))) =
    [{| ci_paths := ["/repo/a"; "/repo/b"];
        ci_queue := [("/repo/a", 0); ("/repo/b", 1)];
        ci_completed := false |}].
Proof.
  assert (Hnd : NoDup (Uri_fsPath <$> [file "/repo/a"; file "/repo/b"])).
  { by_computation. }
  split; [exact Hnd|].
  apply (distinct_queries_dispatched_in_order
           (World_init (Err:=string) exampleRepository emptyHost)
           [file "/repo/a"; file "/repo/b"] eq_refl Hnd).
Defined.

Lemma empty_dispatch_witness :
  w_settled (checkIgnore_completes 0 (inl {["/repo/a"]})
               (checkIgnoreSoon_body (World_init (Err:=string) exampleRepository emptyHost))) =
  [].
Proof.
  apply (empty_dispatch
           (World_init (Err:=string) exampleRepository emptyHost)
           (inl {["/repo/a"]}) eq_refl).
Defined.

Lemma onDidCloseRepository_untracked_witness :
  (repoId otherRepository ∉
     Map_keys (g_providers (GitDecorations_new [exampleRepository] emptyHost).1)) ∧
  onDidCloseRepository otherRepository (GitDecorations_new [exampleRepository] emptyHost) =
  GitDecorations_new [exampleRepository] emptyHost.
Proof.
  assert (Hnin : repoId otherRepository ∉
    Map_keys (g_providers (GitDecorations_new [exampleRepository] emptyHost).1)).
  { by_computation. }
  split; [exact Hnin|].
  destruct (GitDecorations_new [exampleRepository] emptyHost) as [this h] eqn:Hnew.
  by apply onDidCloseRepository_untracked.
Defined.

Lemma open_close_round_trip_witness :
  (repoId otherRepository ∉
     Map_keys (g_providers (GitDecorations_new [exampleRepository] emptyHost).1)) ∧
  (onDidCloseRepository otherRepository
     (onDidOpenRepository otherRepository
        (GitDecorations_new [exampleRepository] emptyHost))).1 =
    (GitDecorations_new [exampleRepository] emptyHost).1 ∧
  disposed (onDidCloseRepository otherRepository
     (onDidOpenRepository otherRepository
        (GitDecorations_new [exampleRepository] emptyHost))).2 = [5; 6; 7].
Proof.
  assert (Hnin : repoId otherRepository ∉
    Map_keys (g_providers (GitDecorations_new [exampleRepository] emptyHost).1)).
  { by_computation. }
  split; [exact Hnin|].
  destruct (GitDecorations_new [exampleRepository] emptyHost) as [this h] eqn:Hnew.
  destruct (open_close_round_trip otherRepository this h Hnin) as (Hthis & _ & Hdisp).
  split; [exact Hthis|]. rewrite Hdisp.
  injection Hnew as <- <-. reflexivity.
Defined.

Lemma onDidOpenRepository_again_witness :
  Map_keys (g_providers (onDidOpenRepository exampleRepository
                           (GitDecorations_new [exampleRepository] emptyHost)).1) = [0] ∧
  disposed (onDidCloseRepository exampleRepository
     (onDidOpenRepository exampleRepository
        (GitDecorations_new [exampleRepository] emptyHost))).2 = [5; 6; 7].
Proof.
  destruct (GitDecorations_new [exampleRepository] emptyHost) as [this h] eqn:Hnew.
  injection Hnew as <- <-.
  match goal with |- context [onDidOpenRepository _ (?t, ?h0)] =>
    destruct (onDidOpenRepository_again exampleRepository t h0 (newPair exampleRepository 2)
                eq_refl) as (Hkeys & _ & _ & Hdisp)
  end.
  split; [exact Hkeys | exact Hdisp].
Defined.

Lemma onDidRunOperation_adds_new_witness :
  ∃ uris,
    gd_fired (onDidRunOperation exampleRepository
      (exampleProvider [("file:///repo/x", D1); ("file:///repo/y", D2)])) = [uris] ∧
    file "/repo/z" ∈ uris.
Proof.
  destruct (onDidRunOperation_adds_new exampleRepository
              (exampleProvider [("file:///repo/x", D1); ("file:///repo/y", D2)])
              (file "/repo/z")
              {| original := file "/repo/z"; resourceDecoration := Some D3 |})
    as (_ & uris & Hfired & Hin).
  - by_computation.
  - cbn. do 3 right. left.
  - reflexivity.
  - by exists D3.
  - exists uris. split; [exact Hfired | exact Hin].
Defined.

Lemma GitDecorations_handle_frame_witness :
  Map_get 0 (g_providers
    (GitDecorations_handle
       (GitDecorations_new [exampleRepository; otherRepository] emptyHost)
       (DidCloseRepository otherRepository)).1) =
  Map_get 0 (g_providers
    (GitDecorations_new [exampleRepository; otherRepository] emptyHost).1).
Proof.
  apply (GitDecorations_handle_frame
           (GitDecorations_new [exampleRepository; otherRepository] emptyHost)
           (DidCloseRepository otherRepository) 0).
  discriminate.
Defined.

(** [otherRepository] is opened and [exampleRepository] closed after a
    construction with [exampleRepository] open, on a host where nothing had
    happened: the handles held are 0, 1 and 5, 6, 7, and [dispose] was called
    on 2, 3, 4. *)
Lemma GitDecorations_run_inv_witness :
  Host_wf emptyHost ∧
  NoDup (g_disposables
           (GitDecorations_run [DidOpenRepository otherRepository;
                                DidCloseRepository exampleRepository]
              (GitDecorations_new [exampleRepository] emptyHost)).1 ++
         trackedHandles
           (GitDecorations_run [DidOpenRepository otherRepository;
                                DidCloseRepository exampleRepository]
              (GitDecorations_new [exampleRepository] emptyHost)).1) ∧
  disposed (GitDecorations_run [DidOpenRepository otherRepository;
                                DidCloseRepository exampleRepository]
              (GitDecorations_new [exampleRepository] emptyHost)).2 = [2; 3; 4].
Proof.
  assert (Hhost : Host_wf emptyHost).
  { intros d Hd. by apply elem_of_nil in Hd. }
  destruct (GitDecorations_run_inv [exampleRepository] emptyHost
              [DidOpenRepository otherRepository; DidCloseRepository exampleRepository]
              Hhost) as (_ & Hheld & _ & _).
  split_and!; [exact Hhost | exact Hheld | reflexivity].
Defined.
